(** * on-device-checka: capability probing, chunked summarization and the
      scan / replace pipeline

    A shallow embedding of the control logic of the extension panel
    ([src/popup.js] and its two sibling panel scripts, called [part_000]
    and [part_001] below) together with the properties the specification
    states about it.

    JavaScript strings are sequences of UTF-16 code units; they are
    modelled as lists of code units ([N]).  JavaScript numbers are IEEE 754
    binary64 values and are modelled by Rocq's primitive floats.  Host
    calls ([availability], [create], [summarize], [prompt], [destroy]) are
    modelled by their settled outcome: a returned value or a thrown one. *)

From Stdlib Require Import String Ascii.
From Stdlib Require Import NArith ZArith Bool Arith Lia Floats List.
From Stdlib Require Import Permutation.
Import ListNotations.

Set Implicit Arguments.

(** ** JavaScript values *)

Module JS.

Definition char := N.
Bind Scope N_scope with char.
Definition jsstring := list char.

(** Code units of an ASCII literal. *)
Definition str (s : string) : jsstring :=
  List.map N_of_ascii (list_ascii_of_string s).

Fixpoint str_eqb (a b : jsstring) : bool :=
  match a, b with
  | [], [] => true
  | x :: a', y :: b' => N.eqb x y && str_eqb a' b'
  | _, _ => false
  end.

(** The longest prefix in a character class, and what follows it (a
    greedy [C*]). *)
Fixpoint span (p : char -> bool) (s : jsstring) : jsstring * jsstring :=
  match s with
  | c :: s' =>
      if p c then let (a, r) := span p s' in (c :: a, r) else ([], s)
  | [] => ([], [])
  end.

(** [s] without the prefix [pre], when it starts with it. *)
Fixpoint strip_prefix (pre s : jsstring) : option jsstring :=
  match pre, s with
  | [], _ => Some s
  | p :: pre', c :: s' => if N.eqb p c then strip_prefix pre' s' else None
  | _ :: _, [] => None
  end.

(** Line feed. *)
Definition LF : char := 10.

(** [s.startsWith(pre)] *)
Definition startsWith (s pre : jsstring) : bool :=
  match strip_prefix pre s with Some _ => true | None => false end.

(** WhiteSpace and LineTerminator code units, as [trim] removes them. *)
Definition is_js_whitespace (c : char) : bool :=
  existsb (N.eqb c)
    [9; 10; 11; 12; 13; 32; 160; 5760; 8232; 8233; 8239; 8287; 12288;
     65279]%N
  || (N.leb 8192 c && N.leb c 8202).

Fixpoint trimStart (s : jsstring) : jsstring :=
  match s with
  | c :: s' => if is_js_whitespace c then trimStart s' else s
  | [] => []
  end.

(** [s.trim()] *)
Definition trim (s : jsstring) : jsstring :=
  rev (trimStart (rev (trimStart s))).

(** Objects carry their own data properties; a callable object (a function
    or a class) also carries the index of its behaviour in the host.  The
    prototype chain and accessor properties are not modelled. *)
#[warnings="-register-all"]
Inductive value : Type :=
| VUndefined
| VNull
| VBool (b : bool)
| VNum (x : float)
| VStr (s : jsstring)
| VObj (callable : option nat) (props : list (jsstring * value)).

(** The settled outcome of a call (after [await]). *)
Inductive outcome (A : Type) : Type :=
| Returns (a : A)
| Throws (e : value).
Arguments Returns {A} a.
Arguments Throws {A} e.

Definition bind {A B} (m : outcome A) (k : A -> outcome B) : outcome B :=
  match m with
  | Returns a => k a
  | Throws e => Throws e
  end.

(** [try { body } catch (e) { handler }] *)
Definition try_catch {A} (body : outcome A) (handler : value -> outcome A)
  : outcome A :=
  match body with
  | Returns a => Returns a
  | Throws e => handler e
  end.

Definition is_nan (x : float) : bool := negb (PrimFloat.eqb x x).

(** ToBoolean *)
Definition truthy (v : value) : bool :=
  match v with
  | VUndefined | VNull => false
  | VBool b => b
  | VNum x => negb (PrimFloat.eqb x 0 || is_nan x)
  | VStr s => match s with [] => false | _ => true end
  | VObj _ _ => true
  end.

Definition typeof (v : value) : jsstring :=
  match v with
  | VUndefined => str "undefined"
  | VNull => str "object"
  | VBool _ => str "boolean"
  | VNum _ => str "number"
  | VStr _ => str "string"
  | VObj (Some _) _ => str "function"
  | VObj None _ => str "object"
  end.

(** [v === undefined] *)
Definition is_undefined (v : value) : bool :=
  match v with VUndefined => true | _ => false end.

Fixpoint lookup (k : jsstring) (props : list (jsstring * value)) : value :=
  match props with
  | [] => VUndefined
  | (k', v) :: rest => if str_eqb k k' then v else lookup k rest
  end.

Definition TypeError : value :=
  VObj None [(str "name", VStr (str "TypeError"))].

(** [new Error(message)] *)
Definition Error (message : jsstring) : value :=
  VObj None [(str "message", VStr message)].

(** Property read [v[k]]: a TypeError on [null] and [undefined], the own
    property of an object, [undefined] on the other primitives. *)
Definition get (v : value) (k : jsstring) : outcome value :=
  match v with
  | VUndefined | VNull => Throws TypeError
  | VObj _ props => Returns (lookup k props)
  | _ => Returns VUndefined
  end.

(** The host: what each callable does on an argument list. *)
Definition host := nat -> list value -> outcome value.

(** [await f(args)] *)
Definition call (h : host) (f : value) (args : list value) : outcome value :=
  match f with
  | VObj (Some i) _ => h i args
  | _ => Throws TypeError
  end.

(** The window object seen by [getApiObject]. *)
Definition window := list (jsstring * value).

(** A capability descriptor ([apis] entries and the literal of the scan
    handler); absent fields are [None]. *)
Record apiDef : Type := {
  key : jsstring;
  namespace : option jsstring;
  fallback : option jsstring
}.

(** [{ api, path }] *)
Record resolved : Type := { api : value; path : jsstring }.

(** [apiDef.namespace === 'ai'] *)
Definition namespace_is_ai (d : apiDef) : bool :=
  match namespace d with
  | Some n => str_eqb n (str "ai")
  | None => false
  end.

(** [o[k]] on an object known to be truthy (the read cannot throw). *)
Definition member (o : value) (k : jsstring) : value :=
  match get o k with
  | Returns v => v
  | Throws _ => VUndefined
  end.

(** [window.ai] *)
Definition window_ai (w : window) : value := lookup (str "ai") w.

End JS.
Import JS.

Notation "x <- m ;; k" := (bind m (fun x => k))
  (at level 61, m at next level, right associativity).

(** Statement completion inside a function body: fall through with a value
    of the local state, or [return]. *)
Inductive completion (A : Type) : Type :=
| Normal (a : A)
| Return (v : value).
Arguments Normal {A} a.
Arguments Return {A} v.

(** ** Model sessions

    A run is recorded as the list of the calls it made on the host, in
    order.  The host is deterministic but otherwise arbitrary: what a call
    does may depend on everything that happened before it. *)

Module Session.

Inductive event : Type :=
| EvCreate (session : nat) (options : value)
| EvCreateFailed (options : value)
| EvSummarize (session : nat) (text : jsstring)
| EvPrompt (session : nat) (text : jsstring)
| EvDestroy (session : nat).

Record model_host : Type := {
  create_result : list event -> value -> outcome unit;
  summarize_result : list event -> nat -> jsstring -> outcome jsstring;
  prompt_result : list event -> nat -> jsstring -> outcome jsstring;
  destroy_result : list event -> nat -> outcome unit
}.

Definition M (A : Type) : Type := list event -> outcome A * list event.

Definition ret {A} (a : A) : M A := fun log => (Returns a, log).

Definition throw {A} (e : value) : M A := fun log => (Throws e, log).

Definition bindM {A B} (m : M A) (k : A -> M B) : M B :=
  fun log =>
    match m log with
    | (Returns a, log') => k a log'
    | (Throws e, log') => (Throws e, log')
    end.

(** [try { body } finally { cleanup }] *)
Definition try_finally {A} (body : M A) (cleanup : M unit) : M A :=
  fun log =>
    let (r, log') := body log in
    match cleanup log' with
    | (Returns _, log'') => (r, log'')
    | (Throws e, log'') => (Throws e, log'')
    end.

(** [try { body } catch (e) { handler }] *)
Definition try_catchM {A} (body : M A) (handler : value -> M A) : M A :=
  fun log =>
    match body log with
    | (Returns a, log') => (Returns a, log')
    | (Throws e, log') => handler e log'
    end.

(** A step that makes no call on the host. *)
Definition lift {A} (r : outcome A) : M A := fun log => (r, log).

Definition is_create (e : event) : bool :=
  match e with EvCreate _ _ => true | _ => false end.

(** The sessions created so far; the next session gets this number. *)
Definition created (log : list event) : nat :=
  length (filter is_create log).

Definition is_destroy_of (session : nat) (e : event) : bool :=
  match e with EvDestroy s => Nat.eqb s session | _ => false end.

(** How many times [destroy] was invoked on a session. *)
Definition destroyed (session : nat) (log : list event) : nat :=
  length (filter (is_destroy_of session) log).

Section Calls.
Variable H : model_host.

(** [await apiObject.create(options)] *)
Definition create (options : value) : M nat :=
  fun log =>
    match create_result H log options with
    | Returns _ =>
        (Returns (created log), log ++ [EvCreate (created log) options])
    | Throws e => (Throws e, log ++ [EvCreateFailed options])
    end.

(** [await session.summarize(text)] *)
Definition summarize (session : nat) (text : jsstring) : M jsstring :=
  fun log =>
    (summarize_result H log session text, log ++ [EvSummarize session text]).

(** [await session.prompt(text)] *)
Definition prompt (session : nat) (text : jsstring) : M jsstring :=
  fun log =>
    (prompt_result H log session text, log ++ [EvPrompt session text]).

(** [session.destroy()] *)
Definition destroy (session : nat) : M unit :=
  fun log => (destroy_result H log session, log ++ [EvDestroy session]).
End Calls.

End Session.
Import Session.

Notation "x <<- m ;; k" := (bindM m (fun x => k))
  (at level 61, m at next level, right associativity).

(** ** [JSON.parse]

    Values of JSON texts.  A number is kept as the decimal it was written
    as, [(-1)^negative * digits * 10^exp10]. *)

Module JSON.

#[warnings="-register-all"]
Inductive json : Type :=
| JNull
| JBool (b : bool)
| JNumber (negative : bool) (digits : N) (exp10 : Z)
| JString (s : jsstring)
| JArray (elements : list json)
| JObject (members : list (jsstring * json)).

Inductive parse_result : Type :=
| Parsed (v : json) (rest : jsstring)
| SyntaxError
| OutOfFuel.

Definition is_json_ws (c : char) : bool :=
  N.eqb c 9 || N.eqb c 10 || N.eqb c 13 || N.eqb c 32.

Fixpoint skip_ws (s : jsstring) : jsstring :=
  match s with
  | c :: s' => if is_json_ws c then skip_ws s' else s
  | [] => []
  end.

Definition is_digit (c : char) : bool := N.leb 48 c && N.leb c 57.

Definition digits_value (ds : jsstring) : N :=
  fold_left (fun acc d => acc * 10 + (d - 48))%N ds 0%N.

Definition hex_value (c : char) : option N :=
  if is_digit c then Some (c - 48)%N
  else if N.leb 65 c && N.leb c 70 then Some (c - 55)%N
  else if N.leb 97 c && N.leb c 102 then Some (c - 87)%N
  else None.

(** The code unit of [\uXXXX]. *)
Definition hex4 (a b c d : char) : option char :=
  match hex_value a, hex_value b, hex_value c, hex_value d with
  | Some x, Some y, Some z, Some w =>
      Some (((x * 16 + y) * 16 + z) * 16 + w)%N
  | _, _, _, _ => None
  end.

(** The code unit of a one-letter escape. *)
Definition simple_escape (c : char) : option char :=
  if N.eqb c 34 then Some 34%N            (* quotation mark *)
  else if N.eqb c 92 then Some 92%N       (* reverse solidus *)
  else if N.eqb c 47 then Some 47%N       (* solidus *)
  else if N.eqb c 98 then Some 8%N        (* b *)
  else if N.eqb c 102 then Some 12%N      (* f *)
  else if N.eqb c 110 then Some 10%N      (* n *)
  else if N.eqb c 114 then Some 13%N      (* r *)
  else if N.eqb c 116 then Some 9%N       (* t *)
  else None.

(** The characters of a string after its opening quotation mark, up to
    the closing one. *)
Fixpoint parse_chars (s : jsstring) (acc : jsstring)
  : option (jsstring * jsstring) :=
  match s with
  | [] => None
  | c :: r =>
      if N.eqb c 34 then Some (acc, r)
      else if N.eqb c 92 then
        match r with
        | [] => None
        | e :: r' =>
            if N.eqb e 117 then
              match r' with
              | h1 :: h2 :: h3 :: h4 :: r'' =>
                  match hex4 h1 h2 h3 h4 with
                  | Some u => parse_chars r'' (acc ++ [u])
                  | None => None
                  end
              | _ => None
              end
            else
              match simple_escape e with
              | Some x => parse_chars r' (acc ++ [x])
              | None => None
              end
        end
      else if N.ltb c 32 then None
      else parse_chars r (acc ++ [c])
  end.

(** An optional minus sign. *)
Definition number_sign (s : jsstring) : bool * jsstring :=
  match s with
  | c :: r => if N.eqb c 45 then (true, r) else (false, s)
  | [] => (false, s)
  end.

(** The integer part: a zero, or a run of digits. *)
Definition number_int (s : jsstring) : jsstring * jsstring :=
  match s with
  | c :: r => if N.eqb c 48 then ([c], r) else span is_digit s
  | [] => ([], s)
  end.

(** An optional fraction: a dot and at least one digit. *)
Definition number_fraction (s : jsstring) : option (jsstring * jsstring) :=
  match s with
  | c :: r =>
      if N.eqb c 46 then
        match span is_digit r with
        | ([], _) => None
        | (f, r') => Some (f, r')
        end
      else Some ([], s)
  | [] => Some ([], s)
  end.

(** An optional exponent: [e] or [E], an optional sign, at least one
    digit. *)
Definition number_exponent (s : jsstring) : option (Z * jsstring) :=
  match s with
  | c :: r =>
      if N.eqb c 101 || N.eqb c 69 then
        let (minus, r1) :=
          match r with
          | sg :: r0 =>
              if N.eqb sg 45 then (true, r0)
              else if N.eqb sg 43 then (false, r0)
              else (false, r)
          | [] => (false, r)
          end in
        match span is_digit r1 with
        | ([], _) => None
        | (ds, r2) =>
            let e := Z.of_N (digits_value ds) in
            Some (if minus then Z.opp e else e, r2)
        end
      else Some (0%Z, s)
  | [] => Some (0%Z, s)
  end.

(** A number: sign, integer part, fraction, exponent. *)
Definition parse_number (s : jsstring) : option (json * jsstring) :=
  let (negative, s1) := number_sign s in
  let (int, s2) := number_int s1 in
  match int with
  | [] => None
  | _ :: _ =>
      match number_fraction s2 with
      | None => None
      | Some (frac, s3) =>
          match number_exponent s3 with
          | None => None
          | Some (e, s4) =>
              Some (JNumber negative (digits_value (int ++ frac))
                      (e - Z.of_nat (length frac))%Z, s4)
          end
      end
  end.

(** Defining a property: a repeated name overwrites the earlier value. *)
Fixpoint set_member (k : jsstring) (v : json)
  (members : list (jsstring * json)) : list (jsstring * json) :=
  match members with
  | [] => [(k, v)]
  | (k', v') :: rest =>
      if str_eqb k k' then (k, v) :: rest
      else (k', v') :: set_member k v rest
  end.

Definition expect (c : char) (s : jsstring) : option jsstring :=
  match s with
  | x :: r => if N.eqb x c then Some r else None
  | [] => None
  end.

(** A value, the rest of an array after its opening bracket, the rest of
    an object after its opening brace.  Leading white space is skipped by
    the caller of [parse_value]. *)
Fixpoint parse_value (fuel : nat) (s : jsstring) : parse_result :=
  match fuel with
  | 0 => OutOfFuel
  | S fuel' =>
      match s with
      | [] => SyntaxError
      | c :: r =>
          if N.eqb c 123 then
            match skip_ws r with
            | x :: r' =>
                if N.eqb x 125 then Parsed (JObject []) r'
                else parse_members fuel' (x :: r') []
            | [] => SyntaxError
            end
          else if N.eqb c 91 then
            match skip_ws r with
            | x :: r' =>
                if N.eqb x 93 then Parsed (JArray []) r'
                else parse_elements fuel' (x :: r') []
            | [] => SyntaxError
            end
          else if N.eqb c 34 then
            match parse_chars r [] with
            | Some (chars, r') => Parsed (JString chars) r'
            | None => SyntaxError
            end
          else
            match strip_prefix (str "true") s,
                  strip_prefix (str "false") s,
                  strip_prefix (str "null") s with
            | Some r', _, _ => Parsed (JBool true) r'
            | _, Some r', _ => Parsed (JBool false) r'
            | _, _, Some r' => Parsed JNull r'
            | None, None, None =>
                match parse_number s with
                | Some (n, r') => Parsed n r'
                | None => SyntaxError
                end
            end
      end
  end

with parse_elements (fuel : nat) (s : jsstring) (acc : list json)
  : parse_result :=
  match fuel with
  | 0 => OutOfFuel
  | S fuel' =>
      match parse_value fuel' s with
      | Parsed v r =>
          match skip_ws r with
          | x :: r' =>
              if N.eqb x 44 then parse_elements fuel' (skip_ws r') (acc ++ [v])
              else if N.eqb x 93 then Parsed (JArray (acc ++ [v])) r'
              else SyntaxError
          | [] => SyntaxError
          end
      | failure => failure
      end
  end

with parse_members (fuel : nat) (s : jsstring)
  (acc : list (jsstring * json)) : parse_result :=
  match fuel with
  | 0 => OutOfFuel
  | S fuel' =>
      match expect 34 s with
      | None => SyntaxError
      | Some r0 =>
          match parse_chars r0 [] with
          | None => SyntaxError
          | Some (k, r1) =>
              match expect 58 (skip_ws r1) with
              | None => SyntaxError
              | Some r2 =>
                  match parse_value fuel' (skip_ws r2) with
                  | Parsed v r3 =>
                      match skip_ws r3 with
                      | x :: r4 =>
                          if N.eqb x 44 then
                            parse_members fuel' (skip_ws r4)
                              (set_member k v acc)
                          else if N.eqb x 125 then
                            Parsed (JObject (set_member k v acc)) r4
                          else SyntaxError
                      | [] => SyntaxError
                      end
                  | failure => failure
                  end
              end
          end
      end
  end.

(** [JSON.parse(text)]: one value between white space, or a SyntaxError.
    Every step of the descent takes at least one code unit every other
    call, so twice the length bounds the calls. *)
Definition parse (text : jsstring) : parse_result :=
  match parse_value (2 * length text + 2) (skip_ws text) with
  | Parsed v rest =>
      match skip_ws rest with
      | [] => Parsed v []
      | _ :: _ => SyntaxError
      end
  | failure => failure
  end.

(** The number is zero once rounded to a binary64 value: it is written
    with zero digits, or is at most [2^-1075]. *)
Definition number_is_zero (digits : N) (exp10 : Z) : bool :=
  N.eqb digits 0
  || (Z.ltb exp10 0
      && Z.leb (Z.of_N digits * 2 ^ 1075) (10 ^ (Z.opp exp10))).

(** ToBoolean of a parsed value. *)
Definition truthy (v : json) : bool :=
  match v with
  | JNull => false
  | JBool b => b
  | JNumber _ digits exp10 => negb (number_is_zero digits exp10)
  | JString s => match s with [] => false | _ => true end
  | JArray _ | JObject _ => true
  end.

(** The own property [k] of an object, if there is one. *)
Fixpoint member (k : jsstring) (members : list (jsstring * json))
  : option json :=
  match members with
  | [] => None
  | (k', v) :: rest => if str_eqb k k' then Some v else member k rest
  end.

End JSON.

(** ** The panel: descriptors, cards and download buttons *)

Module Panel.

(** An entry of the [apis] list: its name, the fields [getApiObject]
    reads, and its [checkArgs] (an object literal when present). *)
Record descriptor : Type := {
  name : jsstring;
  def : apiDef;
  checkArgs : option (list (jsstring * value))
}.

(** [apiDef.checkArgs] as a value. *)
Definition checkArgs_value (d : descriptor) : value :=
  match checkArgs d with
  | Some props => VObj None props
  | None => VUndefined
  end.

Definition descriptor_of (name key : string) : descriptor :=
  {| name := str name;
     def := {| key := str key; namespace := None; fallback := None |};
     checkArgs := None |}.

(** The [apis] list, the same in the three files. *)
Definition apis : list descriptor :=
  [ descriptor_of "Language Model (Gemini Nano)" "LanguageModel";
    {| name := str "Translator";
       def := {| key := str "Translator"; namespace := None;
                 fallback := None |};
       checkArgs := Some [(str "sourceLanguage", VStr (str "en"));
                          (str "targetLanguage", VStr (str "es"))] |};
    descriptor_of "Language Detector" "LanguageDetector";
    descriptor_of "Summarizer" "Summarizer";
    descriptor_of "Writer" "Writer";
    descriptor_of "Rewriter" "Rewriter" ].

(** [status === literal] *)
Definition is_status (status : value) (literal : string) : bool :=
  match status with
  | VStr s => str_eqb s (str literal)
  | _ => false
  end.

(** What a card offers below its details. *)
Inductive card_action : Type :=
| NoAction
| DownloadButton
| SummarizeButton.

(** A card: the name, the status on the badge, the details line. *)
Record card : Type := {
  card_name : jsstring;
  badge : value;
  details : jsstring;
  action : card_action
}.

(** [path || 'Not found'] *)
Definition details_of (path : jsstring) : jsstring :=
  match path with
  | [] => str "Not found"
  | _ => path
  end.

(** Defining or overwriting an own property of an object literal. *)
Fixpoint set_prop (k : jsstring) (v : value)
  (props : list (jsstring * value)) : list (jsstring * value) :=
  match props with
  | [] => [(k, v)]
  | (k', v') :: rest =>
      if str_eqb k k' then (k, v) :: rest
      else (k', v') :: set_prop k v rest
  end.

(** [apiDef.checkArgs ? { ...apiDef.checkArgs, monitor } : { monitor }] *)
Definition createArgs (d : descriptor) (monitor : value) : value :=
  match checkArgs d with
  | Some props => VObj None (set_prop (str "monitor") monitor props)
  | None => VObj None [(str "monitor", monitor)]
  end.

(** A callback handed to [setTimeout]. *)
Inductive timer : Type :=
| DestroyLater (session : nat)
| ReloadLater.

(** The card after a click on its download button. *)
Record download_view : Type := {
  caption : jsstring;
  badge_after : option jsstring;
  error_shown : option value;
  button_enabled : bool;
  timers : list timer
}.

Section Sessions.
Variable H : model_host.
(** The object the n-th [create] resolved with. *)
Variable session_value : nat -> value.

(** [session && typeof session.destroy === 'function'] *)
Definition can_destroy (session : nat) : bool :=
  truthy (session_value session)
  && str_eqb (typeof (member (session_value session) (str "destroy")))
       (str "function").

(** [if (session && typeof session.destroy === 'function')
    session.destroy()] *)
Definition destroy_if_possible (session : nat) : M unit :=
  if can_destroy session then destroy H session else ret tt.

(** A timer fires: an error thrown by its callback reaches nobody. *)
Definition runTimer (t : timer) : M unit :=
  match t with
  | DestroyLater session =>
      try_catchM (destroy_if_possible session) (fun _ => ret tt)
  | ReloadLater => ret tt
  end.

Fixpoint runTimers (ts : list timer) : M unit :=
  match ts with
  | [] => ret tt
  | t :: rest => _ <<- runTimer t ;; runTimers rest
  end.

(** [if (apiObject.create) session = await apiObject.create(createArgs)
    else throw new Error("Create method not found")] *)
Definition createOrThrow (apiObject : value) (d : descriptor)
  (monitor : value) : M nat :=
  create_member <<- lift (get apiObject (str "create")) ;;
  if truthy create_member then create H (createArgs d monitor)
  else throw (Error (str "Create method not found")).
End Sessions.

End Panel.
Import Panel.

(** ** Capability resolver, [src/popup.js] lines 55-113 *)

Module Popup.

Definition getApiObject (w : window) (d : apiDef) : resolved :=
  if namespace_is_ai d
     && (truthy (window_ai w) && truthy (member (window_ai w) (key d)))
  then
    {| api := member (window_ai w) (key d);
       path := str "window.ai." ++ key d |}
  else if truthy (lookup (key d) w) then
    {| api := lookup (key d) w; path := str "window." ++ key d |}
  else
    match fallback d with
    | Some f =>
        if truthy (VStr f) && truthy (lookup f w) then
          {| api := lookup f w; path := str "window." ++ f |}
        else {| api := VNull; path := [] |}
    | None => {| api := VNull; path := [] |}
    end.

Definition checkAvailability (h : host) (apiObject args : value)
  : outcome value :=
  if negb (truthy apiObject) then Returns (VStr (str "unavailable")) else
  try_catch
    (availability <- get apiObject (str "availability") ;;
     if str_eqb (typeof availability) (str "function") then
       (* let status; if (args) try { status = await availability(args) } *)
       let status :=
         if truthy args then
           match call h availability [args] with
           | Returns v => v
           | Throws _ => VUndefined
           end
         else VUndefined in
       (* if (status === undefined) try { status = await availability() } *)
       let step :=
         if is_undefined status then
           match call h availability [] with
           | Returns v => Normal v
           | Throws _ =>
               if truthy args then Return (VStr (str "error"))
               else Normal status
           end
         else Normal status in
       match step with
       | Return r => Returns r
       | Normal status =>
           if is_undefined status then Returns (VStr (str "error"))
           else if str_eqb (typeof status) (str "object") then
             available <- get status (str "available") ;;
             if truthy available then Returns available
             else Returns (VStr (str "available_object"))
           else Returns status
       end
     else Returns (VStr (str "available_unknown_methods")))
    (fun _ => Returns (VStr (str "error"))).

(** *** Download progress, lines 176-182 *)

(** A [downloadprogress] event. *)
Record progress_event : Type := { loaded : float; total : float }.

(** [(e.loaded / e.total) * 100] *)
Definition percent_of (e : progress_event) : float :=
  PrimFloat.mul (PrimFloat.div (loaded e) (total e)) 100.

(** The listener on one event: the percentage it writes to the progress
    bar (the caption shows the same value, rounded) is appended to what
    was reported so far. *)
Definition on_downloadprogress (reported : list float) (e : progress_event)
  : list float :=
  reported ++ [percent_of e].

(** The values reported for a stream of events, in the order of delivery. *)
Definition monitor (events : list progress_event) : list float :=
  fold_left on_downloadprogress events [].

(** *** Scan phase, lines 281-340 *)

Definition fence : jsstring := str "```".

Definition quoted (s : string) : jsstring := [34]%N ++ str s ++ [34]%N.

(** The template literal of lines 287-298. *)
Definition promptFor (pageText : jsstring) : jsstring :=
  [LF] ++
  str "            Task: Identify a few nouns, verbs, and adjectives from the text below."
  ++ [LF] ++
  str "            Output JSON only with format:" ++ [LF] ++
  str "            {" ++ [LF] ++
  str "              " ++ quoted "nouns" ++ str ": [" ++ quoted "noun1"
  ++ str ", " ++ quoted "noun2" ++ str "]," ++ [LF] ++
  str "              " ++ quoted "verbs" ++ str ": [" ++ quoted "verb1"
  ++ str ", " ++ quoted "verb2" ++ str "]," ++ [LF] ++
  str "              " ++ quoted "adjectives" ++ str ": [" ++ quoted "adj1"
  ++ str ", " ++ quoted "adj2" ++ str "]" ++ [LF] ++
  str "            }" ++ [LF] ++
  str "            Find at most 3 of each category if possible." ++ [LF] ++
  str "            Text:" ++ [LF] ++
  str "            " ++ pageText ++ [LF] ++
  str "            ".

(** [jsonStr.replace(/^```(json)?/, '')]: the fence the string starts
    with, and the token [json] when it follows at once. *)
Definition strip_leading_fence (jsonStr : jsstring) : jsstring :=
  match strip_prefix fence jsonStr with
  | Some r =>
      match strip_prefix (str "json") r with
      | Some r' => r'
      | None => r
      end
  | None => jsonStr
  end.

(** [jsonStr.replace(/```$/, '')]: the fence the string ends with. *)
Definition strip_trailing_fence (jsonStr : jsstring) : jsstring :=
  match strip_prefix (rev fence) (rev jsonStr) with
  | Some r => rev r
  | None => jsonStr
  end.

(** Lines 310-318: [JSON.parse] in its [try], and the error thrown
    instead of the SyntaxError. *)
Definition parseOrThrow (jsonStr : jsstring) : outcome JSON.json :=
  match JSON.parse jsonStr with
  | JSON.Parsed parsed _ => Returns parsed
  | _ => Throws (Error (str "Failed to parse model output."))
  end.

(** Lines 304-318: the parsed response, or the error thrown. *)
Definition parseResponse (result : jsstring) : outcome JSON.json :=
  let jsonStr := trim result in
  let jsonStr :=
    if startsWith jsonStr fence then
      strip_trailing_fence (strip_leading_fence jsonStr)
    else jsonStr in
  parseOrThrow jsonStr.

(** An input of the words form: [dataset.original], [dataset.category]. *)
Record word_input : Type := {
  original : JSON.json;
  category : jsstring
}.

Definition categories : list jsstring :=
  [str "nouns"; str "verbs"; str "adjectives"].

(** Lines 348-367, one category: [wordsData[cat]] is read (a TypeError on
    [null]); nothing is added when it is falsy or has [length] 0;
    otherwise [forEach] adds one input per word, and is a TypeError on a
    value that is not an array. *)
Definition renderCategory (wordsData : JSON.json) (cat : jsstring)
  : outcome (list word_input) :=
  match wordsData with
  | JSON.JNull => Throws TypeError
  | JSON.JObject members =>
      match JSON.member cat members with
      | None => Returns []
      | Some words =>
          if negb (JSON.truthy words) then Returns []
          else
            match words with
            | JSON.JArray elements =>
                Returns (map (fun originalWord =>
                                {| original := originalWord;
                                   category := cat |}) elements)
            | JSON.JObject fields =>
                match JSON.member (str "length") fields with
                | Some (JSON.JNumber _ digits exp10) =>
                    if JSON.number_is_zero digits exp10 then Returns []
                    else Throws TypeError
                | _ => Throws TypeError
                end
            | _ => Throws TypeError
            end
      end
  | _ => Returns []
  end.

(** Lines 343-369: the inputs of all categories, in order. *)
Fixpoint renderCategories (wordsData : JSON.json) (cats : list jsstring)
  : outcome (list word_input) :=
  match cats with
  | [] => Returns []
  | cat :: rest =>
      inputs <- renderCategory wordsData cat ;;
      more <- renderCategories wordsData rest ;;
      Returns (inputs ++ more)
  end.

Definition renderWordsForm (wordsData : JSON.json)
  : outcome (list word_input) :=
  renderCategories wordsData categories.

(** What the panel shows when the handler is done. *)
Inductive scan_result : Type :=
| WordsShown (currentWordsMap : JSON.json) (wordsForm : list word_input)
| ErrorShown (err : value).

Section Scan.
Variable H : model_host.

(** The click handler of [scanBtn] from line 281 on, with the text of the
    page already fetched (no session exists before that line). *)
Definition scanClick (w : window) (pageText : jsstring) : M scan_result :=
  try_catchM
    (let languageModel :=
       api (getApiObject w {| key := str "LanguageModel";
                              namespace := Some (str "ai");
                              fallback := None |}) in
     if negb (JS.truthy languageModel) then
       throw (Error (str "Language Model API not found."))
     else
       session <<- create H VUndefined ;;
       result <<- prompt H session (promptFor pageText) ;;
       parsed <<- lift (parseResponse result) ;;
       inputs <<- lift (renderWordsForm parsed) ;;
       _ <<- destroy H session ;;
       ret (WordsShown parsed inputs))
    (fun err => ret (ErrorShown err)).
End Scan.

(** *** Replace phase, lines 389-424 *)

(** The class of line 412: [. * + ? ^ $ { } ( ) | [ ] \]. *)
Definition is_syntax_character (c : char) : bool :=
  existsb (N.eqb c)
    [46; 42; 43; 63; 94; 36; 123; 125; 40; 41; 124; 91; 93; 92]%N.

(** Line 412: a backslash before every character of the class. *)
Fixpoint escapeRegExp (original : jsstring) : jsstring :=
  match original with
  | [] => []
  | c :: r =>
      if is_syntax_character c then 92%N :: c :: escapeRegExp r
      else c :: escapeRegExp r
  end.

(** [new RegExp(pattern, 'gi')] for a pattern made of pattern characters
    and escaped syntax characters: the literal it matches.  On any other
    pattern the model gives [None]. *)
Fixpoint literal_of_pattern (pattern : jsstring) : option jsstring :=
  match pattern with
  | [] => Some []
  | c :: r =>
      if N.eqb c 92 then
        match r with
        | e :: r' =>
            if is_syntax_character e then
              option_map (cons e) (literal_of_pattern r')
            else None
        | [] => None
        end
      else if is_syntax_character c then None
      else option_map (cons c) (literal_of_pattern r)
  end.

Section Replace.
(** The simple upper-case mapping of code units above U+00FF (a table of
    the Unicode Character Database). *)
Variable unicode_upper : char -> char.

(** Canonicalize of a code unit under the [i] flag (without [u]). *)
Definition canonicalize (c : char) : char :=
  if N.leb 97 c && N.leb c 122 then (c - 32)%N
  else if N.ltb c 128 then c
  else if N.eqb c 181 then 924%N
  else if N.eqb c 255 then 376%N
  else if N.leb 224 c && N.leb c 254 && negb (N.eqb c 247) then (c - 32)%N
  else if N.ltb c 256 then c
  else unicode_upper c.

(** The literal matches at the start of [s]. *)
Fixpoint matches_at (literal s : jsstring) : bool :=
  match literal, s with
  | [], _ => true
  | p :: literal', c :: s' =>
      N.eqb (canonicalize p) (canonicalize c) && matches_at literal' s'
  | _ :: _, [] => false
  end.

(** [regex.test(text)] on a regular expression just built. *)
Fixpoint test (literal text : jsstring) : bool :=
  matches_at literal text
  || match text with
     | [] => false
     | _ :: r => test literal r
     end.

(** GetSubstitution for a match without capture groups: [$$], [$&],
    [$`] and [$'] are expanded, everything else stands for itself. *)
Fixpoint getSubstitution (matched before after replacement : jsstring)
  : jsstring :=
  match replacement with
  | [] => []
  | c :: r =>
      if N.eqb c 36 then
        match r with
        | d :: r' =>
            if N.eqb d 36 then
              36%N :: getSubstitution matched before after r'
            else if N.eqb d 38 then
              matched ++ getSubstitution matched before after r'
            else if N.eqb d 96 then
              before ++ getSubstitution matched before after r'
            else if N.eqb d 39 then
              after ++ getSubstitution matched before after r'
            else 36%N :: getSubstitution matched before after r
        | [] => [36]%N
        end
      else c :: getSubstitution matched before after r
  end.

(** [text.replace(regex, replacement)] with the [g] flag, from the
    position behind [before]; [skip] code units of the last match are
    still to be passed over.  An empty match is followed by one code unit
    of the text. *)
Fixpoint replace_from (literal replacement before s : jsstring) (skip : nat)
  : jsstring :=
  match s with
  | [] =>
      match skip, literal with
      | 0, [] => getSubstitution [] before [] replacement
      | _, _ => []
      end
  | c :: s' =>
      match skip with
      | S k => replace_from literal replacement (before ++ [c]) s' k
      | 0 =>
          if matches_at literal s then
            getSubstitution (firstn (length literal) s) before
              (skipn (length literal) s) replacement
            ++ match literal with
               | [] =>
                   c :: replace_from literal replacement (before ++ [c]) s' 0
               | _ :: literal' =>
                   replace_from literal replacement (before ++ [c]) s'
                     (length literal')
               end
          else c :: replace_from literal replacement (before ++ [c]) s' 0
      end
  end.

Definition replace (literal text replacement : jsstring) : jsstring :=
  replace_from literal replacement [] text 0.

(** Lines 404-418, one entry of the map on the state [(text, modified)];
    [new RegExp] throws a SyntaxError on a pattern it cannot read. *)
Definition replaceEntry (state : jsstring * bool)
  (entry : jsstring * jsstring) : outcome (jsstring * bool) :=
  let (text, modified) := state in
  let (original, replacement) := entry in
  let escapedOriginal := escapeRegExp original in
  match literal_of_pattern escapedOriginal with
  | None => Throws (Error (str "Invalid regular expression"))
  | Some regex =>
      if test regex text then Returns (replace regex text replacement, true)
      else Returns (text, modified)
  end.

Fixpoint replaceEntries (entries : list (jsstring * jsstring))
  (state : jsstring * bool) : outcome (jsstring * bool) :=
  match entries with
  | [] => Returns state
  | entry :: rest =>
      state' <- replaceEntry state entry ;;
      replaceEntries rest state'
  end.

(** Lines 401-422, one text node: the value assigned to [node.nodeValue],
    or [None] when nothing is assigned.  The map is given as
    [Object.entries] lists it. *)
Definition replaceInNode (replacementsMap : list (jsstring * jsstring))
  (nodeValue : jsstring) : outcome (option jsstring) :=
  state <- replaceEntries replacementsMap (nodeValue, false) ;;
  let (text, modified) := state in
  if modified then Returns (Some text) else Returns None.

(** The node value after the node was visited. *)
Definition nodeValueAfter (replacementsMap : list (jsstring * jsstring))
  (nodeValue : jsstring) : outcome jsstring :=
  assigned <- replaceInNode replacementsMap nodeValue ;;
  match assigned with
  | Some text => Returns text
  | None => Returns nodeValue
  end.

(** Lines 389-424: all text nodes of the document, in document order. *)
Fixpoint replaceTextNodes (replacementsMap : list (jsstring * jsstring))
  (nodes : list jsstring) : outcome (list jsstring) :=
  match nodes with
  | [] => Returns []
  | nodeValue :: rest =>
      v <- nodeValueAfter replacementsMap nodeValue ;;
      vs <- replaceTextNodes replacementsMap rest ;;
      Returns (v :: vs)
  end.
End Replace.

(** *** Replace click handler, lines 371-429 *)

(** An input of the words form as the handler reads it. *)
Record form_input : Type := {
  dataset_original : jsstring;
  input_value : jsstring
}.

(** Defining or overwriting an own property: a name already there keeps
    its place and gets the new value. *)
Fixpoint set_property (k v : jsstring) (props : list (jsstring * jsstring))
  : list (jsstring * jsstring) :=
  match props with
  | [] => [(k, v)]
  | (k', v') :: rest =>
      if str_eqb k k' then (k, v) :: rest
      else (k', v') :: set_property k v rest
  end.

(** [replacements[k] = v] on an object literal, for a string [v]: the
    name [__proto__] is the accessor of the prototype, which ignores a
    string, so no property is made. *)
Definition assign (props : list (jsstring * jsstring)) (k v : jsstring)
  : list (jsstring * jsstring) :=
  if str_eqb k (str "__proto__") then props else set_property k v props.

(** Line 374-380: the replacements object, its properties in the order
    of their creation. *)
Definition gatherReplacements (inputs : list form_input)
  : list (jsstring * jsstring) :=
  fold_left
    (fun replacements input =>
       match trim (input_value input) with
       | [] => replacements
       | v => assign replacements (dataset_original input) v
       end)
    inputs [].

(** The array index a property name stands for: decimal digits without a
    leading zero, below [2^32 - 1]. *)
Definition array_index (k : jsstring) : option N :=
  match k with
  | [] => None
  | c :: r =>
      if forallb JSON.is_digit k
         && (negb (N.eqb c 48) || match r with [] => true | _ => false end)
         && N.ltb (JSON.digits_value k) 4294967295
      then Some (JSON.digits_value k)
      else None
  end.

Fixpoint insert_indexed (n : N) (e : jsstring * jsstring)
  (l : list (N * (jsstring * jsstring))) : list (N * (jsstring * jsstring)) :=
  match l with
  | [] => [(n, e)]
  | (m, e') :: r =>
      if N.ltb n m then (n, e) :: (m, e') :: r
      else (m, e') :: insert_indexed n e r
  end.

(** The properties whose names are array indices, by ascending index. *)
Definition indexed (props : list (jsstring * jsstring))
  : list (N * (jsstring * jsstring)) :=
  fold_right
    (fun e acc =>
       match array_index (fst e) with
       | Some n => insert_indexed n e acc
       | None => acc
       end)
    [] props.

Definition is_named (e : jsstring * jsstring) : bool :=
  match array_index (fst e) with
  | Some _ => false
  | None => true
  end.

(** [Object.entries]: array indices first, in ascending order, then the
    other names in the order of their creation. *)
Definition Object_entries (props : list (jsstring * jsstring))
  : list (jsstring * jsstring) :=
  map snd (indexed props) ++ filter is_named props.

Section ReplaceClick.
Variable unicode_upper : char -> char.

End ReplaceClick.

(** *** Cards, lines 115-235 *)

(** Lines 119-152: the card of a descriptor, and [isGeminiAvailable]
    afterwards. *)
Definition renderApiItem (h : host) (w : window) (isGeminiAvailable : bool)
  (d : descriptor) : outcome (card * bool) :=
  let resolved := getApiObject w (def d) in
  status <- checkAvailability h (api resolved) (checkArgs_value d) ;;
  let isGeminiAvailable :=
    if str_eqb (key (def d)) (str "LanguageModel")
       && (is_status status "readily" || is_status status "available")
    then true else isGeminiAvailable in
  Returns
    ({| card_name := name d;
        badge := status;
        details := details_of (path resolved);
        action :=
          if is_status status "after-download"
             || is_status status "downloadable"
          then DownloadButton else NoAction |},
     isGeminiAvailable).

(** Lines 230-232: the cards of a list of descriptors, in order. *)
Fixpoint renderApiItems (h : host) (w : window) (isGeminiAvailable : bool)
  (ds : list descriptor) : outcome (list card * bool) :=
  match ds with
  | [] => Returns ([], isGeminiAvailable)
  | d :: rest =>
      rendered <- renderApiItem h w isGeminiAvailable d ;;
      more <- renderApiItems h w (snd rendered) rest ;;
      Returns (fst rendered :: fst more, snd more)
  end.

(** Lines 237-248: what [initMadLibs] hides. *)
Record mad_libs_view : Type := {
  unavailable_msg_hidden : bool;
  content_hidden : bool
}.

Definition initMadLibs (isGeminiAvailable : bool) : mad_libs_view :=
  if isGeminiAvailable then
    {| unavailable_msg_hidden := true; content_hidden := false |}
  else
    {| unavailable_msg_hidden := false; content_hidden := true |}.

(** Lines 47 and 230-235: the panel when it opens. *)
Definition openPanel (h : host) (w : window)
  : outcome (list card * mad_libs_view) :=
  rendered <- renderApiItems h w false apis ;;
  Returns (fst rendered, initMadLibs (snd rendered)).

Section Download.
Variable H : model_host.

(** Lines 169-214: the click on a download button.  The view and
    [isGeminiAvailable] afterwards. *)
Definition downloadClick (apiObject : value) (d : descriptor)
  (monitor : value) (isGeminiAvailable : bool) : M (download_view * bool) :=
  try_catchM
    (session <<- createOrThrow H apiObject d monitor ;;
     ret ({| caption := str "Downloaded!";
             badge_after := Some (str "readily");
             error_shown := None;
             button_enabled := false;
             timers := [DestroyLater session] |},
          if str_eqb (key (def d)) (str "LanguageModel") then true
          else isGeminiAvailable))
    (fun err =>
       ret ({| caption := str "Retry Download";
               badge_after := None;
               error_shown := Some err;
               button_enabled := true;
               timers := [] |},
            isGeminiAvailable)).
End Download.

End Popup.

(** ** Capability resolver, [part_000] lines 98-160 *)

Module Part000.

Definition getApiObject (w : window) (d : apiDef) : resolved :=
  if namespace_is_ai d
     && (truthy (window_ai w) && truthy (member (window_ai w) (key d)))
  then
    {| api := member (window_ai w) (key d);
       path := str "window.ai." ++ key d |}
  else if truthy (lookup (key d) w) then
    {| api := lookup (key d) w; path := str "window." ++ key d |}
  else
    match fallback d with
    | Some f =>
        if truthy (VStr f) && truthy (lookup f w) then
          {| api := lookup f w; path := str "window." ++ f |}
        else {| api := VNull; path := [] |}
    | None => {| api := VNull; path := [] |}
    end.

Definition checkAvailability (h : host) (apiObject args : value)
  : outcome value :=
  if negb (truthy apiObject) then Returns (VStr (str "unavailable")) else
  try_catch
    (availability <- get apiObject (str "availability") ;;
     if str_eqb (typeof availability) (str "function") then
       (* let status; if (args) try { status = await availability(args) } *)
       let status :=
         if truthy args then
           match call h availability [args] with
           | Returns v => v
           | Throws _ => VUndefined
           end
         else VUndefined in
       (* if (status === undefined) try { status = await availability() } *)
       let step :=
         if is_undefined status then
           match call h availability [] with
           | Returns v => Normal v
           | Throws _ =>
               if truthy args then Return (VStr (str "error"))
               else Normal status
           end
         else Normal status in
       match step with
       | Return r => Returns r
       | Normal status =>
           if is_undefined status then Returns (VStr (str "error"))
           else if str_eqb (typeof status) (str "object") then
             available <- get status (str "available") ;;
             if truthy available then Returns available
             else Returns (VStr (str "available_object"))
           else Returns status
       end
     else Returns (VStr (str "available_unknown_methods")))
    (fun _ => Returns (VStr (str "error"))).

(** *** Chunked summarization, [part_000] lines 43-90 *)

Definition CHUNK_SIZE : nat := 4000.

(** The class [[.!?\n]]. *)
Definition is_terminator (c : char) : bool :=
  N.eqb c 46 || N.eqb c 33 || N.eqb c 63 || N.eqb c 10.

Definition is_not_terminator (c : char) : bool := negb (is_terminator c).

(** One attempt of [/[^.!?\n]+[.!?\n]+/] at the start of [s]: the matched
    text and the input after it.  Both quantifiers are greedy; giving back
    code units of the first run cannot help, since what then follows is
    not a terminator. *)
Definition sentence_at (s : jsstring) : option (jsstring * jsstring) :=
  let (body, r) := span is_not_terminator s in
  let (term, r') := span is_terminator r in
  match body, term with
  | _ :: _, _ :: _ => Some (body ++ term, r')
  | _, _ => None
  end.

(** The matches of the global regular expression, left to right: after a
    match the search resumes behind it, after a failed attempt one code
    unit further. *)
Fixpoint match_all (fuel : nat) (s : jsstring) : list jsstring :=
  match fuel with
  | 0 => []
  | S fuel' =>
      match s with
      | [] => []
      | _ :: s' =>
          match sentence_at s with
          | Some (m, r) => m :: match_all fuel' r
          | None => match_all fuel' s'
          end
      end
  end.

(** [text.match(/[^.!?\n]+[.!?\n]+/g) || [text]] *)
Definition sentences_of (text : jsstring) : list jsstring :=
  match match_all (length text) text with
  | [] => [text]
  | ms => ms
  end.

(** The loop of lines 61-68, on the state [(chunks, currentChunk)]. *)
Fixpoint pack (sentences : list jsstring) (chunks : list jsstring)
  (currentChunk : jsstring) : list jsstring * jsstring :=
  match sentences with
  | [] => (chunks, currentChunk)
  | sentence :: rest =>
      if CHUNK_SIZE <? length (currentChunk ++ sentence) then
        pack rest (chunks ++ [currentChunk]) sentence
      else
        pack rest chunks (currentChunk ++ sentence)
  end.

(** Lines 55-56 and 61-69: pack the sentences, then
    [if (currentChunk) chunks.push(currentChunk)]. *)
Definition chunks_of_sentences (sentences : list jsstring) : list jsstring :=
  let (chunks, currentChunk) := pack sentences [] [] in
  match currentChunk with
  | [] => chunks
  | _ => chunks ++ [currentChunk]
  end.

(** Lines 55-69: the chunks of a text. *)
Definition split_chunks (text : jsstring) : list jsstring :=
  chunks_of_sentences (sentences_of text).

(** [Array.prototype.join] on strings. *)
Fixpoint join (sep : jsstring) (l : list jsstring) : jsstring :=
  match l with
  | [] => []
  | [x] => x
  | x :: rest => x ++ sep ++ join sep rest
  end.

(** [{ type: 'key-points', format: 'markdown', length: 'medium' }] *)
Definition summarizerOptions : value :=
  VObj None [(str "type", VStr (str "key-points"));
             (str "format", VStr (str "markdown"));
             (str "length", VStr (str "medium"))].

Section Summarization.
Variable H : model_host.

(** Lines 79-82: summarize the chunks in order. *)
Fixpoint summarize_each (summarizer : nat) (chunks : list jsstring)
  (chunkSummaries : list jsstring) : M (list jsstring) :=
  match chunks with
  | [] => ret chunkSummaries
  | chunk :: rest =>
      summary <<- summarize H summarizer chunk ;;
      summarize_each summarizer rest (chunkSummaries ++ [summary])
  end.

(** The recursion has no bound in the source; [fuel] bounds the number
    of passes and [None] says that it ran out. *)
Fixpoint runSummarization (fuel : nat) (text : jsstring)
  : M (option jsstring) :=
  match fuel with
  | 0 => ret None
  | S fuel' =>
      if length text <=? CHUNK_SIZE then
        summarizer <<- create H summarizerOptions ;;
        result <<- summarize H summarizer text ;;
        _ <<- destroy H summarizer ;;
        ret (Some result)
      else
        let chunks := split_chunks text in
        summarizer <<- create H summarizerOptions ;;
        chunkSummaries <<-
          try_finally (summarize_each summarizer chunks [])
                      (destroy H summarizer) ;;
        let combined := join [10; 10]%N chunkSummaries in
        runSummarization fuel' combined
  end.
End Summarization.

(** *** Cards, [part_000] lines 162-319 *)

(** Lines 166-263: the card of a descriptor. *)
Definition renderApiItem (h : host) (w : window) (d : descriptor)
  : outcome card :=
  let resolved := getApiObject w (def d) in
  status <- checkAvailability h (api resolved) (checkArgs_value d) ;;
  Returns
    {| card_name := name d;
       badge := status;
       details := details_of (path resolved);
       action :=
         if is_status status "after-download"
            || is_status status "downloadable"
         then DownloadButton
         else if str_eqb (key (def d)) (str "Summarizer")
                 && (is_status status "available"
                     || is_status status "readily")
         then SummarizeButton
         else NoAction |}.

Section Download.
Variable H : model_host.
Variable session_value : nat -> value.

(** Lines 214-257: the click on a download button.  The reload is
    scheduled first, then the session is destroyed at once. *)
Definition downloadClick (apiObject : value) (d : descriptor)
  (monitor : value) : M download_view :=
  fun log =>
    match createOrThrow H apiObject d monitor log with
    | (Throws err, log') =>
        (Returns {| caption := str "Retry Download";
                    badge_after := None;
                    error_shown := Some err;
                    button_enabled := true;
                    timers := [] |}, log')
    | (Returns session, log') =>
        match destroy_if_possible H session_value session log' with
        | (Returns _, log'') =>
            (Returns {| caption := str "Downloaded!";
                        badge_after := Some (str "readily");
                        error_shown := None;
                        button_enabled := false;
                        timers := [ReloadLater] |}, log'')
        | (Throws err, log'') =>
            (Returns {| caption := str "Retry Download";
                        badge_after := Some (str "readily");
                        error_shown := Some err;
                        button_enabled := true;
                        timers := [ReloadLater] |}, log'')
        end
    end.
End Download.

(** *** Summarize button, [part_000] lines 281-304 *)


Section SummarizeButton.
Variable H : model_host.

End SummarizeButton.

End Part000.

(** ** Capability resolver, [part_001] lines 39-101 *)

Module Part001.

Definition getApiObject (w : window) (d : apiDef) : resolved :=
  if namespace_is_ai d
     && (truthy (window_ai w) && truthy (member (window_ai w) (key d)))
  then
    {| api := member (window_ai w) (key d);
       path := str "window.ai." ++ key d |}
  else if truthy (lookup (key d) w) then
    {| api := lookup (key d) w; path := str "window." ++ key d |}
  else
    match fallback d with
    | Some f =>
        if truthy (VStr f) && truthy (lookup f w) then
          {| api := lookup f w; path := str "window." ++ f |}
        else {| api := VNull; path := [] |}
    | None => {| api := VNull; path := [] |}
    end.

Definition checkAvailability (h : host) (apiObject args : value)
  : outcome value :=
  if negb (truthy apiObject) then Returns (VStr (str "unavailable")) else
  try_catch
    (availability <- get apiObject (str "availability") ;;
     if str_eqb (typeof availability) (str "function") then
       (* let status; if (args) try { status = await availability(args) } *)
       let status :=
         if truthy args then
           match call h availability [args] with
           | Returns v => v
           | Throws _ => VUndefined
           end
         else VUndefined in
       (* if (status === undefined) try { status = await availability() } *)
       let step :=
         if is_undefined status then
           match call h availability [] with
           | Returns v => Normal v
           | Throws _ =>
               if truthy args then Return (VStr (str "error"))
               else Normal status
           end
         else Normal status in
       match step with
       | Return r => Returns r
       | Normal status =>
           if is_undefined status then Returns (VStr (str "error"))
           else if str_eqb (typeof status) (str "object") then
             available <- get status (str "available") ;;
             if truthy available then Returns available
             else Returns (VStr (str "available_object"))
           else Returns status
       end
     else Returns (VStr (str "available_unknown_methods")))
    (fun _ => Returns (VStr (str "error"))).

(** *** Cards, [part_001] lines 103-203 *)

(** Lines 107-138: the card of a descriptor. *)
Definition renderApiItem (h : host) (w : window) (d : descriptor)
  : outcome card :=
  let resolved := getApiObject w (def d) in
  status <- checkAvailability h (api resolved) (checkArgs_value d) ;;
  Returns
    {| card_name := name d;
       badge := status;
       details := details_of (path resolved);
       action :=
         if is_status status "after-download"
            || is_status status "downloadable"
         then DownloadButton else NoAction |}.

Section Download.
Variable H : model_host.

(** Lines 155-194: the click on a download button. *)
Definition downloadClick (apiObject : value) (d : descriptor)
  (monitor : value) : M download_view :=
  try_catchM
    (session <<- createOrThrow H apiObject d monitor ;;
     ret {| caption := str "Downloaded!";
            badge_after := Some (str "readily");
            error_shown := None;
            button_enabled := false;
            timers := [DestroyLater session] |})
    (fun err =>
       ret {| caption := str "Retry Download";
              badge_after := None;
              error_shown := Some err;
              button_enabled := true;
              timers := [] |}).
End Download.

End Part001.

(** * Properties *)

(** ** Availability probing *)

(** The enumerated availability statuses of the specification. *)
Definition AvailabilityStatus : list jsstring :=
  [ str "unavailable"; str "unavailable-no-handle"; str "error";
    str "downloadable"; str "after-download"; str "readily";
    str "available"; str "available_object";
    str "available_unknown_methods" ].

Definition enumerated (r : value) : Prop :=
  exists s, r = VStr s /\ In s AvailabilityStatus.


(** The status the host communicates through a value [v] it returned:
    [v] itself when it is not an object (and not [undefined]), the truthy
    [available] field of [v] when it is one. *)
Definition communicated (v r : value) : Prop :=
  (is_undefined v = false /\ typeof v <> str "object" /\ r = v) \/
  (typeof v = str "object" /\
   get v (str "available") = Returns r /\ truthy r = true).

(** [r] was handed over by the host: one of the two availability calls
    returned a value that communicates [r]. *)
Definition host_supplied (h : host) (apiObject args r : value) : Prop :=
  exists availability callargs v,
    get apiObject (str "availability") = Returns availability /\
    (callargs = [args] \/ callargs = []) /\
    call h availability callargs = Returns v /\
    communicated v r.


(** ** Chunking *)

(** A sentence as the splitter cuts it: a non-empty run without terminators
    followed by a non-empty run of terminators. *)
Definition is_sentence (m : jsstring) : Prop :=
  exists body term,
    m = body ++ term /\ body <> [] /\ term <> [] /\
    forallb Part000.is_not_terminator body = true /\
    forallb Part000.is_terminator term = true.

(** The text does not start with a terminator (it may be empty). *)
Definition starts_clean (s : jsstring) : Prop :=
  match s with
  | [] => True
  | c :: _ => Part000.is_terminator c = false
  end.

(** ** Download progress *)

(** Each value is at most the next one. *)
Fixpoint nondecreasing (l : list float) : bool :=
  match l with
  | [] => true
  | a :: rest =>
      match rest with
      | [] => true
      | b :: _ => PrimFloat.leb a b && nondecreasing rest
      end
  end.

(** ** Response parsing *)




(** A parse that did not run out of fuel and, when it succeeded, took at
    least one code unit of [s]. *)
Definition settled (res : JSON.parse_result) (s : jsstring) : Prop :=
  res <> JSON.OutOfFuel /\
  forall v r, res = JSON.Parsed v r -> length r < length s.

(** ** Model hosts used as concrete inputs *)

(** Sessions are created and destroyed without error; [summarize] throws;
    [prompt] answers [response]. *)
Definition host_summarize_fails (response : jsstring) : model_host :=
  {| create_result := fun _ _ => Returns tt;
     summarize_result := fun _ _ _ => Throws (Error (str "summarize failed"));
     prompt_result := fun _ _ _ => Returns response;
     destroy_result := fun _ _ => Returns tt |}.

(** A window that exposes [LanguageModel] at the top level. *)
Definition window_with_language_model : window :=
  [(str "LanguageModel", VObj (Some 0) [])].

(** A host on which every call succeeds and [summarize] computes [f]. *)
Definition host_of (f : jsstring -> jsstring) : model_host :=
  {| create_result := fun _ _ => Returns tt;
     summarize_result := fun _ _ text => Returns (f text);
     prompt_result := fun _ _ text => Returns (f text);
     destroy_result := fun _ _ => Returns tt |}.

(** A host on which no session can be created. *)
Definition host_without_sessions : model_host :=
  {| create_result := fun _ _ => Throws (Error (str "model unavailable"));
     summarize_result := fun _ _ text => Returns text;
     prompt_result := fun _ _ text => Returns text;
     destroy_result := fun _ _ => Returns tt |}.

(** ** Words form *)

(** The words a well-formed map lists under a category: the elements of
    the array, nothing when the category is missing. *)
Definition words_in (cat : jsstring) (members : list (jsstring * JSON.json))
  : list JSON.json :=
  match JSON.member cat members with
  | Some (JSON.JArray elements) => elements
  | _ => []
  end.

(** One input per word of a category. *)
Definition inputs_for (cat : jsstring) (members : list (jsstring * JSON.json))
  : list Popup.word_input :=
  map (fun originalWord =>
         {| Popup.original := originalWord; Popup.category := cat |})
      (words_in cat members).

(** The category is missing or an array. *)
Definition category_well_formed (cat : jsstring)
  (members : list (jsstring * JSON.json)) : Prop :=
  JSON.member cat members = None \/
  exists elements, JSON.member cat members = Some (JSON.JArray elements).

(** The descriptor the scan handler resolves. *)
Definition languageModelDef : apiDef :=
  {| key := str "LanguageModel";
     namespace := Some (str "ai");
     fallback := None |}.

(** ** Gathered replacements *)

(** What holds of every property of the gathered object: names are not
    repeated, no value is empty, and each value is the trimmed value of
    an input of that name. *)
Definition gathered_from (inputs : list Popup.form_input)
  (props : list (jsstring * jsstring)) : Prop :=
  NoDup (map fst props) /\
  forall k v,
    In (k, v) props ->
    v <> [] /\ k <> str "__proto__" /\
    exists input,
      In input inputs /\ Popup.dataset_original input = k /\
      trim (Popup.input_value input) = v.

(** The input leaves no replacement: its value is blank. *)
Definition blank (input : Popup.form_input) : Prop :=
  trim (Popup.input_value input) = [].

(** ** Cards *)

(** The card of a capability that was not found. *)
Definition unavailable_card (d : descriptor) : card :=
  {| card_name := name d;
     badge := VStr (str "unavailable");
     details := str "Not found";
     action := NoAction |}.





(** The card after a download, with the callbacks it scheduled. *)
Definition downloaded_view (scheduled : list timer) : download_view :=
  {| caption := str "Downloaded!";
     badge_after := Some (str "readily");
     error_shown := None;
     button_enabled := false;
     timers := scheduled |}.

(** A session object with a [destroy] method. *)
Definition session_with_destroy : value :=
  VObj None [(str "destroy", VObj (Some 1) [])].

(** A capability with a [create] method. *)
Definition handle_with_create : value :=
  VObj None [(str "create", VObj (Some 2) [])].

(** Hosts and handles used as concrete inputs. *)
Definition fn (i : nat) : value := VObj (Some i) [].

Definition handle_with (availability : value) : value :=
  VObj None [(str "availability", availability)].

(** The [checkArgs] of the Translator descriptor. *)
Definition translatorArgs : value :=
  VObj None [(str "sourceLanguage", VStr (str "en"));
             (str "targetLanguage", VStr (str "es"))].

(** Every call returns [v]. *)
Definition host_const (v : value) : host := fun _ _ => Returns v.


(** Every call throws. *)
Definition host_throwing : host :=
  fun _ _ => Throws (Error (str "not supported")).

Lemma str_eqb_refl (s : jsstring) : str_eqb s s = true.
Proof. induction s as [|c s IH]; cbn; [|rewrite N.eqb_refl]; auto. Qed.

Lemma str_eqb_eq (a b : jsstring) : str_eqb a b = true <-> a = b.
Proof.
  split; [| intros ->; apply str_eqb_refl].
  revert b; induction a as [|x a IH]; intros [|y b]; cbn; try discriminate; auto.
  intros H. apply andb_prop in H as [Hx Hr].
  apply N.eqb_eq in Hx. f_equal; auto.
Qed.











(** A host that answers with the structured result [{available:
    'readily'}] supplies only enumerated statuses. *)
Lemma structured_host_supplies_enumerated (args r : value) :
  host_supplied
    (host_const (VObj None [(str "available", VStr (str "readily"))]))
    (handle_with (fn 0)) args r ->
  enumerated r.
Proof.
  intros (availability & callargs & v & Hget & _ & Hcall & Hcom).
  injection Hget as <-. cbn in Hcall. injection Hcall as <-.
  destruct Hcom as [(_ & Hty & _) | (_ & Hav & _)].
  - exfalso. apply Hty. reflexivity.
  - cbn in Hav. injection Hav as <-.
    exists (str "readily"). split; [reflexivity|]. cbn. tauto.
Qed.

(** C10.  The three copies of [getApiObject] and of [checkAvailability]
    ([popup.js], [part_000], [part_001]) return the same result on every
    window, descriptor, host, handle and args. *)
Theorem resolver_copies_agree :
  (forall (w : window) (d : apiDef),
     Popup.getApiObject w d = Part000.getApiObject w d /\
     Part000.getApiObject w d = Part001.getApiObject w d) /\
  (forall (h : host) (apiObject args : value),
     Popup.checkAvailability h apiObject args
       = Part000.checkAvailability h apiObject args /\
     Part000.checkAvailability h apiObject args
       = Part001.checkAvailability h apiObject args).
Proof. split; intros; split; reflexivity. Qed.

(** ** Sentence splitting and packing *)

Section Splitting.
Import Part000.

Lemma span_spec (p : char -> bool) (s a r : jsstring) :
  span p s = (a, r) ->
  s = a ++ r /\ forallb p a = true /\
  match r with [] => True | c :: _ => p c = false end.
Proof.
  revert a r; induction s as [|c s IH]; intros a r; cbn.
  - intros [= <- <-]. auto.
  - destruct (p c) eqn:Hc.
    + destruct (span p s) as [a' r'] eqn:Hs.
      intros [= <- <-].
      destruct (IH a' r' eq_refl) as (-> & Ha & Hr).
      cbn. rewrite Hc. auto.
    + intros [= <- <-]. cbn. auto.
Qed.

Lemma sentence_at_some (s m r : jsstring) :
  sentence_at s = Some (m, r) ->
  s = m ++ r /\ is_sentence m /\ starts_clean r /\ length r < length s.
Proof.
  unfold sentence_at.
  destruct (span is_not_terminator s) as [body r0] eqn:Hb.
  destruct (span is_terminator r0) as [term r1] eqn:Ht.
  destruct (span_spec _ _ Hb) as (-> & Hbody & _).
  destruct (span_spec _ _ Ht) as (-> & Hterm & Hr1).
  destruct body as [|b body]; [discriminate|].
  destruct term as [|t term]; [discriminate|].
  intros [= <- <-]. repeat split.
  - now rewrite app_assoc.
  - exists (b :: body), (t :: term). repeat split; auto; discriminate.
  - destruct r1; cbn; auto.
  - rewrite !length_app. cbn. lia.
Qed.

Lemma sentence_at_none (c : char) (s : jsstring) :
  is_terminator c = false ->
  sentence_at (c :: s) = None ->
  forallb is_not_terminator (c :: s) = true.
Proof.
  intros Hc. unfold sentence_at.
  destruct (span is_not_terminator (c :: s)) as [body r0] eqn:Hb.
  destruct (span is_terminator r0) as [term r1] eqn:Ht.
  destruct (span_spec _ _ Hb) as (Hs & Hbody & Hr0).
  destruct (span_spec _ _ Ht) as (-> & Hterm & Hr1).
  destruct body as [|b body].
  - cbn in Hb. unfold is_not_terminator in Hb at 1. rewrite Hc in Hb.
    cbn in Hb. destruct (span is_not_terminator s); discriminate.
  - destruct term as [|t term]; [|discriminate].
    intros _. cbn [app] in *.
    destruct r1 as [|x r1].
    + rewrite Hs, app_nil_r. exact Hbody.
    + unfold is_not_terminator in Hr0. rewrite Hr1 in Hr0. discriminate.
Qed.

Lemma match_all_no_terminator (fuel : nat) (s : jsstring) :
  forallb is_not_terminator s = true -> match_all fuel s = [].
Proof.
  revert s; induction fuel as [|fuel IH]; intros s Hs; cbn; auto.
  destruct s as [|c s]; auto.
  cbn in Hs. apply andb_prop in Hs as [Hc Hs].
  destruct (sentence_at (c :: s)) as [[m r]|] eqn:Hm; auto.
  exfalso. apply sentence_at_some in Hm as (Heq & (body & term & -> & _ & Hne & _ & Hterm) & _).
  destruct term as [|t term]; [congruence|].
  assert (Hall : forallb is_not_terminator (c :: s) = true)
    by (cbn; rewrite Hc, Hs; reflexivity).
  rewrite Heq, <- app_assoc, forallb_app in Hall.
  apply andb_prop in Hall as [_ Hall].
  cbn [app forallb] in Hall, Hterm.
  apply andb_prop in Hall as [Ht _]. apply andb_prop in Hterm as [Ht' _].
  unfold is_not_terminator in Ht. rewrite Ht' in Ht. discriminate.
Qed.

(** The length of the text is fuel enough: more changes nothing. *)
Lemma match_all_fuel (fuel fuel' : nat) (s : jsstring) :
  length s <= fuel -> length s <= fuel' ->
  match_all fuel s = match_all fuel' s.
Proof.
  revert fuel' s; induction fuel as [|fuel IH]; intros fuel' s H1 H2.
  - destruct s; [|cbn in H1; lia]. now destruct fuel'.
  - destruct s as [|c s]; [now destruct fuel'|].
    destruct fuel' as [|fuel']; [cbn in H2; lia|].
    cbn [match_all].
    destruct (sentence_at (c :: s)) as [[m r]|] eqn:Hm.
    + apply sentence_at_some in Hm as (_ & _ & _ & Hlt).
      cbn in H1, H2, Hlt. f_equal. apply IH; lia.
    + cbn in H1, H2. apply IH; lia.
Qed.

(** The matches are sentences. *)
Lemma match_all_sentences (fuel : nat) (s : jsstring) :
  Forall is_sentence (match_all fuel s).
Proof.
  revert s; induction fuel as [|fuel IH]; intros s; cbn; auto.
  destruct s as [|c s]; auto.
  destruct (sentence_at (c :: s)) as [[m r]|] eqn:Hm; auto.
  constructor; auto. now apply sentence_at_some in Hm.
Qed.

(** What the global match covers: everything but the terminators the
    text starts with and the tail that has no terminator. *)
Lemma match_all_decompose (fuel : nat) (s : jsstring) :
  length s <= fuel ->
  exists pre post,
    s = pre ++ concat (match_all fuel s) ++ post /\
    forallb is_terminator pre = true /\
    forallb is_not_terminator post = true /\
    (starts_clean s -> pre = []).
Proof.
  revert s; induction fuel as [|fuel IH]; intros s Hlen.
  - destruct s; [|cbn in Hlen; lia]. exists [], []. cbn. auto.
  - destruct s as [|c s]; [exists [], []; cbn; auto|].
    cbn [match_all].
    destruct (sentence_at (c :: s)) as [[m r]|] eqn:Hm.
    + apply sentence_at_some in Hm as (Heq & Hsent & Hclean & Hlt).
      destruct (IH r) as (pre & post & Hr & Hpre & Hpost & Hnil);
        [cbn in Hlen, Hlt; lia|].
      rewrite (Hnil Hclean) in Hr. cbn [app] in Hr.
      exists [], post. repeat split; auto.
      cbn [app concat]. rewrite <- app_assoc, <- Hr. exact Heq.
    + destruct (is_terminator c) eqn:Hc.
      * destruct (IH s) as (pre & post & Hs & Hpre & Hpost & _);
          [cbn in Hlen; lia|].
        exists (c :: pre), post. repeat split.
        -- cbn. now rewrite <- Hs.
        -- cbn. now rewrite Hc, Hpre.
        -- exact Hpost.
        -- cbn. congruence.
      * pose proof (@sentence_at_none c s Hc Hm) as Hall.
        assert (Htail : forallb is_not_terminator s = true)
          by (cbn in Hall; apply andb_prop in Hall; tauto).
        rewrite (match_all_no_terminator fuel _ Htail).
        exists [], (c :: s). cbn. auto.
Qed.

Lemma pack_concat (sentences chunks : list jsstring) (cur : jsstring)
  (chunks' : list jsstring) (cur' : jsstring) :
  pack sentences chunks cur = (chunks', cur') ->
  concat chunks' ++ cur' = concat chunks ++ cur ++ concat sentences.
Proof.
  revert chunks cur; induction sentences as [|x rest IH];
    intros chunks cur; cbn [pack concat].
  - intros [= <- <-]. now rewrite app_nil_r.
  - destruct (CHUNK_SIZE <? length (cur ++ x)); intros Hp;
      apply IH in Hp; rewrite Hp.
    + rewrite concat_app. cbn. now rewrite app_nil_r, <- !app_assoc.
    + now rewrite <- !app_assoc.
Qed.

(** Packing only regroups: the chunks, put together, are the sentences
    put together. *)
Lemma chunks_of_sentences_concat (sentences : list jsstring) :
  concat (chunks_of_sentences sentences) = concat sentences.
Proof.
  unfold chunks_of_sentences.
  destruct (pack sentences [] []) as [chunks cur] eqn:Hp.
  apply pack_concat in Hp. cbn in Hp.
  destruct cur; [now rewrite app_nil_r in Hp|].
  rewrite concat_app. cbn. now rewrite app_nil_r.
Qed.

Lemma pack_invariant (P : jsstring -> Prop) (Q : jsstring -> Prop)
  (sentences chunks : list jsstring) (cur : jsstring) :
  (forall s, In s sentences -> Q s) ->
  (forall c, Q c -> P c) ->
  (forall c s, P c -> In s sentences ->
     length (c ++ s) <= CHUNK_SIZE -> P (c ++ s)) ->
  Forall P chunks -> P cur ->
  Forall P (fst (pack sentences chunks cur)) /\
  P (snd (pack sentences chunks cur)).
Proof.
  intros HQ HQP Happ.
  revert chunks cur; induction sentences as [|x rest IH];
    intros chunks cur Hch Hcur; cbn [pack]; [cbn; auto|].
  assert (HQ' : forall s, In s rest -> Q s) by (intros; apply HQ; now right).
  assert (Happ' : forall c s, P c -> In s rest ->
            length (c ++ s) <= CHUNK_SIZE -> P (c ++ s))
    by (intros; apply Happ; auto; now right).
  destruct (CHUNK_SIZE <? length (cur ++ x)) eqn:Hlt.
  - apply IH; auto.
    + apply Forall_app; auto.
    + apply HQP, HQ. now left.
  - apply Nat.ltb_ge in Hlt. apply IH; auto.
    apply Happ; auto. now left.
Qed.
End Splitting.

Section Chunks.
Import Part000.

Lemma is_sentence_starts_clean (m : jsstring) :
  is_sentence m -> starts_clean m /\ m <> [].
Proof.
  intros (body & term & -> & Hb & _ & Hall & _).
  destruct body as [|b body]; [congruence|].
  cbn in *. apply andb_prop in Hall as [Hc _].
  unfold is_not_terminator in Hc. apply negb_true_iff in Hc.
  split; [exact Hc | discriminate].
Qed.

Lemma sentences_of_cases (text : jsstring) :
  (match_all (length text) text = [] /\ sentences_of text = [text]) \/
  (match_all (length text) text <> [] /\
   sentences_of text = match_all (length text) text).
Proof.
  unfold sentences_of.
  destruct (match_all (length text) text); [left | right]; split;
    auto; discriminate.
Qed.

Lemma chunks_of_single (text : jsstring) :
  chunks_of_sentences [text] = [text] \/
  chunks_of_sentences [text] = [[]; text] \/
  (text = [] /\ chunks_of_sentences [text] = []).
Proof.
  unfold chunks_of_sentences. cbn [pack app].
  destruct (CHUNK_SIZE <? length text) eqn:Hlt; cbn [pack app].
  - destruct text; [discriminate Hlt|]. right. left. reflexivity.
  - destruct text; [right; right; auto | left; reflexivity].
Qed.

(** The characters the chunks keep: all of the text except terminators
    at its very start and a last piece without terminator. *)
Lemma split_chunks_covers (text : jsstring) :
  exists pre post,
    text = pre ++ concat (split_chunks text) ++ post /\
    forallb is_terminator pre = true /\
    forallb is_not_terminator post = true.
Proof.
  unfold split_chunks. rewrite chunks_of_sentences_concat.
  destruct (sentences_of_cases text) as [[_ ->] | [_ ->]].
  - exists [], []. cbn. now rewrite !app_nil_r.
  - destruct (@match_all_decompose (length text) text (le_n _))
      as (pre & post & H1 & H2 & H3 & _).
    exists pre, post. auto.
Qed.

(** No chunk boundary falls inside a run of terminators: a chunk that
    is not the whole text never begins with a terminator. *)
Lemma split_chunks_boundaries (text chunk : jsstring) :
  In chunk (split_chunks text) -> chunk = text \/ starts_clean chunk.
Proof.
  unfold split_chunks.
  destruct (sentences_of_cases text) as [[_ ->] | [_ ->]].
  - destruct (chunks_of_single text) as [-> | [-> | [_ ->]]]; cbn;
      intuition (subst; cbn; auto).
  - intros Hin. right.
    pose proof (match_all_sentences (length text) text) as Hs.
    rewrite Forall_forall in Hs.
    assert (Hinv :
      Forall starts_clean
        (fst (pack (match_all (length text) text) [] [])) /\
      starts_clean (snd (pack (match_all (length text) text) [] []))).
    { apply pack_invariant with (Q := fun s => starts_clean s /\ s <> []).
      - intros s Hi. now apply is_sentence_starts_clean, Hs.
      - tauto.
      - intros c s Hc Hi _. destruct c; cbn; auto.
        now apply is_sentence_starts_clean, Hs.
      - constructor.
      - exact I. }
    unfold chunks_of_sentences in Hin.
    destruct (pack (match_all (length text) text) [] []) as [chunks cur].
    cbn [fst snd] in Hinv. destruct Hinv as [Hch Hcur].
    rewrite Forall_forall in Hch.
    destruct cur; [auto|].
    apply in_app_or in Hin as [Hin | [<- | []]]; auto.
Qed.
End Chunks.

Section ChunkClaims.
Import Part000.

(** When the text neither starts with a terminator nor ends without one,
    the chunks put together are the text. *)
Lemma split_chunks_reconstructs (text s0 : jsstring) (t : char) :
  starts_clean text ->
  text = s0 ++ [t] -> is_terminator t = true ->
  concat (split_chunks text) = text.
Proof.
  intros Hclean Hlast Ht.
  unfold split_chunks. rewrite chunks_of_sentences_concat.
  destruct (sentences_of_cases text) as [[_ ->] | [_ ->]];
    [cbn; now rewrite app_nil_r|].
  destruct (@match_all_decompose (length text) text (le_n _))
    as (pre & post & Heq & _ & Hpost & Hpre).
  rewrite (Hpre Hclean) in Heq. cbn [app] in Heq.
  destruct post as [|p post'] using rev_ind.
  - now rewrite app_nil_r in Heq.
  - exfalso. clear IHpost'.
    rewrite Hlast, app_assoc in Heq.
    apply app_inj_tail in Heq as [_ <-].
    rewrite forallb_app in Hpost. cbn in Hpost.
    unfold is_not_terminator in Hpost at 2. rewrite Ht in Hpost.
    cbn in Hpost. now rewrite andb_false_r in Hpost.
Qed.

(** C2.  The splitter at a text longer than [CHUNK_SIZE] whose last
    sentence has no terminator (["A."] followed by 4000 times ["b"]):
    the only chunk is ["A."], so the chunks put together are not the
    text. *)
Theorem split_chunks_drops_unterminated_tail :
  CHUNK_SIZE < length (str "A." ++ repeat 98%N 4000) /\
  split_chunks (str "A." ++ repeat 98%N 4000) = [str "A."] /\
  concat (split_chunks (str "A." ++ repeat 98%N 4000))
    <> str "A." ++ repeat 98%N 4000.
Proof.
  split; [apply Nat.ltb_lt; vm_compute; reflexivity|].
  assert (H : split_chunks (str "A." ++ repeat 98%N 4000) = [str "A."])
    by (vm_compute; reflexivity).
  split; [exact H|].
  rewrite H. intros Heq. apply (f_equal (@length _)) in Heq.
  vm_compute in Heq. discriminate Heq.
Qed.

(** C4, as stated, fails on a sentence longer than [CHUNK_SIZE]: a text
    of 4001 times ["a"] is one sentence and becomes one chunk. *)
Lemma split_chunks_oversized_chunk :
  split_chunks (repeat 97%N 4001) = [[]; repeat 97%N 4001] /\
  CHUNK_SIZE < length (repeat 97%N 4001).
Proof.
  split; [vm_compute; reflexivity|].
  apply Nat.ltb_lt; vm_compute; reflexivity.
Qed.

(** C4 (amended).  Every chunk the greedy packing produces has length at
    most [CHUNK_SIZE] or is a single sentence that is itself longer than
    [CHUNK_SIZE]; so all chunks are within [CHUNK_SIZE] when all
    sentences are. *)
Theorem split_chunks_sizes (text : jsstring) :
  Forall (fun chunk =>
            length chunk <= CHUNK_SIZE \/
            (In chunk (sentences_of text) /\ CHUNK_SIZE < length chunk))
         (split_chunks text) /\
  (Forall (fun s => length s <= CHUNK_SIZE) (sentences_of text) ->
   Forall (fun chunk => length chunk <= CHUNK_SIZE) (split_chunks text)).
Proof.
  assert (Hmain :
    Forall (fun chunk =>
              length chunk <= CHUNK_SIZE \/
              (In chunk (sentences_of text) /\ CHUNK_SIZE < length chunk))
           (split_chunks text)).
  { unfold split_chunks, chunks_of_sentences.
    set (P := fun chunk : jsstring =>
                length chunk <= CHUNK_SIZE \/
                (In chunk (sentences_of text) /\ CHUNK_SIZE < length chunk)).
    assert (Hinv : Forall P (fst (pack (sentences_of text) [] [])) /\
                   P (snd (pack (sentences_of text) [] []))).
    { apply pack_invariant with (Q := fun s => In s (sentences_of text)).
      - auto.
      - intros c Hc. unfold P.
        destruct (Nat.le_gt_cases (length c) CHUNK_SIZE); auto.
      - intros c s _ _ Hle. now left.
      - constructor.
      - left. cbn. apply Nat.le_0_l. }
    destruct (pack (sentences_of text) [] []) as [chunks cur].
    cbn [fst snd] in Hinv. destruct Hinv as [Hch Hcur].
    destruct cur; auto. apply Forall_app. auto. }
  split; [exact Hmain|].
  intros Hall. rewrite Forall_forall in *.
  intros chunk Hin. destruct (Hmain chunk Hin) as [Hle | [Hs Hgt]]; auto.
Qed.
End ChunkClaims.

(** ** Download progress *)

Lemma monitor_from (events : list Popup.progress_event) (reported : list float) :
  fold_left Popup.on_downloadprogress events reported
    = reported ++ map Popup.percent_of events.
Proof.
  revert reported; induction events as [|e events IH]; intros reported; cbn.
  - now rewrite app_nil_r.
  - rewrite IH. unfold Popup.on_downloadprogress. now rewrite <- app_assoc.
Qed.

(** C9, as stated, fails on a stream whose ratio goes down: the events
    50/100 and then 25/100 are reported as 50 and then 25. *)
Lemma monitor_reports_decreasing_values :
  Popup.monitor [ {| Popup.loaded := 50; Popup.total := 100 |};
                  {| Popup.loaded := 25; Popup.total := 100 |} ]
    = [50%float; 25%float] /\
  nondecreasing
    (Popup.monitor [ {| Popup.loaded := 50; Popup.total := 100 |};
                     {| Popup.loaded := 25; Popup.total := 100 |} ])
    = false.
Proof. split; reflexivity. Qed.

(** C9 (amended).  For every stream of progress events the component
    computes [loaded / total * 100] for each event and reports exactly
    these values, one per event, in the order of delivery; so what it
    reports is non-decreasing exactly when the percentages of the host's
    stream are. *)
Theorem monitor_reports_each_percent (events : list Popup.progress_event) :
  Popup.monitor events = map Popup.percent_of events /\
  (forall e, Popup.percent_of e
             = PrimFloat.mul (PrimFloat.div (Popup.loaded e) (Popup.total e))
                 100) /\
  nondecreasing (Popup.monitor events)
    = nondecreasing (map Popup.percent_of events).
Proof.
  assert (H : Popup.monitor events = map Popup.percent_of events)
    by (unfold Popup.monitor; now rewrite monitor_from).
  rewrite H. repeat split.
Qed.

(** ** Response parsing *)






(** ** Replace phase *)

Section ReplacePhase.
Import Popup.
Variable unicode_upper : char -> char.

Lemma syntax_character_backslash (c : char) :
  is_syntax_character c = false -> N.eqb c 92 = false.
Proof.
  intros H. destruct (N.eqb_spec c 92) as [-> | _]; [discriminate H | reflexivity].
Qed.

(** The matcher built from the escaped word matches the word itself,
    letter by letter: escaping undoes every special meaning. *)
Lemma literal_of_pattern_escape (original : jsstring) :
  literal_of_pattern (escapeRegExp original) = Some original.
Proof.
  induction original as [|c r IH]; [reflexivity|].
  cbn [escapeRegExp]. destruct (is_syntax_character c) eqn:Hc.
  - cbn [literal_of_pattern]. rewrite N.eqb_refl, Hc, IH. reflexivity.
  - cbn [literal_of_pattern].
    rewrite (syntax_character_backslash _ Hc), Hc, IH. reflexivity.
Qed.

Lemma replaceEntry_returns (state : jsstring * bool)
  (entry : jsstring * jsstring) :
  replaceEntry unicode_upper state entry
  = Returns
      (if test unicode_upper (fst entry) (fst state)
       then (replace unicode_upper (fst entry) (fst state) (snd entry), true)
       else state).
Proof.
  destruct state as [text modified], entry as [original replacement].
  unfold replaceEntry. rewrite literal_of_pattern_escape. cbn [fst snd].
  now destruct (test unicode_upper original text).
Qed.

(** Building the matchers never fails. *)
Lemma replaceEntries_returns (entries : list (jsstring * jsstring))
  (state : jsstring * bool) :
  exists state', replaceEntries unicode_upper entries state = Returns state'.
Proof.
  revert state; induction entries as [|e rest IH]; intros state;
    cbn [replaceEntries].
  - eauto.
  - rewrite replaceEntry_returns. cbn [bind]. apply IH.
Qed.

Lemma replaceEntries_no_match (entries : list (jsstring * jsstring))
  (text : jsstring) (modified : bool) :
  Forall (fun e => test unicode_upper (fst e) text = false) entries ->
  replaceEntries unicode_upper entries (text, modified)
  = Returns (text, modified).
Proof.
  induction 1 as [|e rest He _ IH]; cbn [replaceEntries]; [reflexivity|].
  rewrite replaceEntry_returns. cbn [fst bind]. now rewrite He.
Qed.

Lemma replaceEntries_modified (entries : list (jsstring * jsstring))
  (text text' : jsstring) (modified' : bool) :
  replaceEntries unicode_upper entries (text, true) = Returns (text', modified') ->
  modified' = true.
Proof.
  revert text; induction entries as [|e rest IH]; intros text;
    cbn [replaceEntries].
  - now intros [= _ <-].
  - rewrite replaceEntry_returns. cbn [fst bind].
    destruct (test unicode_upper (fst e) text); apply IH.
Qed.

Lemma replaceEntries_unmodified (entries : list (jsstring * jsstring))
  (text text' : jsstring) :
  replaceEntries unicode_upper entries (text, false) = Returns (text', false) ->
  Forall (fun e => test unicode_upper (fst e) text = false) entries.
Proof.
  induction entries as [|e rest IH]; cbn [replaceEntries]; [constructor|].
  rewrite replaceEntry_returns. cbn [fst bind].
  destruct (test unicode_upper (fst e) text) eqn:Ht.
  - intros Hr. apply replaceEntries_modified in Hr. discriminate.
  - intros Hr. constructor; auto.
Qed.

(** A node value is assigned exactly when some entry matched. *)
Lemma replaceInNode_untouched (replacementsMap : list (jsstring * jsstring))
  (nodeValue : jsstring) :
  replaceInNode unicode_upper replacementsMap nodeValue = Returns None <->
  Forall (fun e => test unicode_upper (fst e) nodeValue = false)
         replacementsMap.
Proof.
  unfold replaceInNode. split.
  - destruct (replaceEntries_returns replacementsMap (nodeValue, false))
      as [[text modified] Hr].
    rewrite Hr. cbn [bind]. destruct modified; [discriminate|]. intros _.
    exact (replaceEntries_unmodified _ _ Hr).
  - intros Hall. now rewrite replaceEntries_no_match.
Qed.

(** A replacement text without dollar sign is inserted as it is. *)
Lemma getSubstitution_plain (matched before after replacement : jsstring) :
  forallb (fun c => negb (N.eqb c 36)) replacement = true ->
  getSubstitution matched before after replacement = replacement.
Proof.
  induction replacement as [|c r IH]; cbn; [reflexivity|].
  intros H. apply andb_prop in H as [Hc Hr].
  apply negb_true_iff in Hc. rewrite Hc. now rewrite IH.
Qed.

(** The replacement of the specification: [cat] is found in ["The Cat
    sat."] whatever its case and replaced by [dog]. *)
Lemma replaceInNode_cat_dog :
  replaceInNode unicode_upper [(str "cat", str "dog")] (str "The Cat sat.")
  = Returns (Some (str "The dog sat.")).
Proof. reflexivity. Qed.

(** C7.  The replace phase at the map [cat] to ["$$"] and the node
    ["The Cat sat."]: the match is replaced by a single dollar sign, not
    by the replacement text; with ["$&"] the node keeps the matched
    word. *)
Theorem replaceInNode_expands_dollar_patterns :
  replaceInNode unicode_upper [(str "cat", str "$$")] (str "The Cat sat.")
    = Returns (Some (str "The $ sat.")) /\
  str "The $ sat." <> str "The $$ sat." /\
  replaceInNode unicode_upper [(str "cat", str "$&")] (str "The Cat sat.")
    = Returns (Some (str "The Cat sat.")).
Proof. repeat split. discriminate. Qed.
End ReplacePhase.

(** ** Session disposal *)

Section Disposal.
Variable H : model_host.

Lemma destroyed_app (session : nat) (a b : list event) :
  destroyed session (a ++ b) = destroyed session a + destroyed session b.
Proof. unfold destroyed. now rewrite filter_app, length_app. Qed.

(** Summarizing the chunks only adds [summarize] calls to the log. *)
Lemma summarize_each_log (summarizer : nat) (chunks acc : list jsstring)
  (log : list event) :
  exists calls,
    snd (Part000.summarize_each H summarizer chunks acc log) = log ++ calls /\
    forall session, destroyed session calls = 0.
Proof.
  revert acc log; induction chunks as [|chunk rest IH]; intros acc log;
    cbn [Part000.summarize_each].
  - exists []. cbn. now rewrite app_nil_r.
  - unfold bindM, summarize at 1.
    destruct (summarize_result H log summarizer chunk) as [summary|e].
    + destruct (IH (acc ++ [summary])
                  (log ++ [EvSummarize summarizer chunk]))
        as (calls & Hlog & Hd).
      exists (EvSummarize summarizer chunk :: calls).
      rewrite Hlog, <- app_assoc. split; [reflexivity|].
      intros session. apply (Hd session).
    + exists [EvSummarize summarizer chunk]. cbn. auto.
Qed.

(** The batch of chunks: whether every [summarize] returns or one of them
    throws, [destroy] is invoked exactly once on the summarizer. *)
Lemma batch_destroys_once (summarizer : nat) (chunks : list jsstring)
  (log : list event) :
  destroyed summarizer
    (snd (try_finally (Part000.summarize_each H summarizer chunks [])
                      (destroy H summarizer) log))
  = S (destroyed summarizer log).
Proof.
  unfold try_finally.
  destruct (summarize_each_log summarizer chunks [] log)
    as (calls & Hlog & Hd).
  destruct (Part000.summarize_each H summarizer chunks [] log)
    as [r log'] eqn:Hrun.
  cbn [snd] in Hlog. subst log'.
  unfold destroy.
  assert (Hcount :
    destroyed summarizer ((log ++ calls) ++ [EvDestroy summarizer])
    = S (destroyed summarizer log)).
  { rewrite !destroyed_app, Hd. unfold destroyed. cbn.
    rewrite Nat.eqb_refl. cbn. lia. }
  destruct (destroy_result H (log ++ calls) summarizer); exact Hcount.
Qed.

(** The base case when [summarize] returns: one session, destroyed once. *)
Lemma base_case_destroys_on_success (fuel : nat) (text result : jsstring)
  (log : list event) :
  length text <= Part000.CHUNK_SIZE ->
  create_result H log Part000.summarizerOptions = Returns tt ->
  summarize_result H (log ++ [EvCreate (created log) Part000.summarizerOptions])
    (created log) text = Returns result ->
  snd (Part000.runSummarization H (S fuel) text log)
  = log ++ [EvCreate (created log) Part000.summarizerOptions;
            EvSummarize (created log) text;
            EvDestroy (created log)].
Proof.
  intros Hlen Hc Hs. cbn [Part000.runSummarization].
  apply Nat.leb_le in Hlen. rewrite Hlen.
  unfold bindM, create. rewrite Hc.
  unfold summarize at 1. rewrite Hs.
  unfold destroy at 1.
  destruct (destroy_result H _ (created log)); cbn [snd ret];
    now rewrite <- !app_assoc.
Qed.
(** The base case when [summarize] throws: the error reaches the caller
    and [destroy] is not invoked at all. *)
Lemma base_case_leaks_on_failure (fuel : nat) (text : jsstring) (e : value)
  (log : list event) :
  length text <= Part000.CHUNK_SIZE ->
  create_result H log Part000.summarizerOptions = Returns tt ->
  summarize_result H (log ++ [EvCreate (created log) Part000.summarizerOptions])
    (created log) text = Throws e ->
  Part000.runSummarization H (S fuel) text log
  = (Throws e,
     log ++ [EvCreate (created log) Part000.summarizerOptions;
             EvSummarize (created log) text]).
Proof.
  intros Hlen Hc Hs. cbn [Part000.runSummarization].
  apply Nat.leb_le in Hlen. rewrite Hlen.
  unfold bindM, create. rewrite Hc.
  unfold summarize at 1. rewrite Hs. now rewrite <- app_assoc.
Qed.

(** The scan handler when the response does not parse: the error is shown
    and [destroy] is not invoked at all. *)
Lemma scanClick_leaks_on_parse_failure (w : window)
  (pageText result : jsstring) (e : value) (log : list event) :
  truthy (api (Popup.getApiObject w
                 {| key := str "LanguageModel";
                    namespace := Some (str "ai");
                    fallback := None |})) = true ->
  create_result H log VUndefined = Returns tt ->
  prompt_result H (log ++ [EvCreate (created log) VUndefined])
    (created log) (Popup.promptFor pageText) = Returns result ->
  Popup.parseResponse result = Throws e ->
  Popup.scanClick H w pageText log
  = (Returns (Popup.ErrorShown e),
     log ++ [EvCreate (created log) VUndefined;
             EvPrompt (created log) (Popup.promptFor pageText)]).
Proof.
  intros Hlm Hc Hp He. unfold Popup.scanClick, try_catchM.
  rewrite Hlm. cbn [negb].
  unfold bindM, create. rewrite Hc.
  unfold prompt at 1. rewrite Hp.
  unfold lift at 1. rewrite He. cbn [ret]. now rewrite <- app_assoc.
Qed.
End Disposal.

(** C1.  Two runs that throw after the session was created and never
    invoke [destroy] on it: the base case of [runSummarization] with a
    [summarize] call that throws, and the scan handler with a response
    that is not JSON. *)
Theorem session_not_destroyed_on_failure :
  Part000.runSummarization
    (host_summarize_fails (str "Sorry, I cannot help with that."))
    1 (str "A short page.") []
  = (Throws (Error (str "summarize failed")),
     [EvCreate 0 Part000.summarizerOptions;
      EvSummarize 0 (str "A short page.")]) /\
  destroyed 0
    (snd (Part000.runSummarization
            (host_summarize_fails (str "Sorry, I cannot help with that."))
            1 (str "A short page.") [])) = 0 /\
  Popup.scanClick
    (host_summarize_fails (str "Sorry, I cannot help with that."))
    window_with_language_model (str "A short page.") []
  = (Returns
       (Popup.ErrorShown (Error (str "Failed to parse model output."))),
     [EvCreate 0 VUndefined;
      EvPrompt 0 (Popup.promptFor (str "A short page."))]) /\
  destroyed 0
    (snd (Popup.scanClick
            (host_summarize_fails (str "Sorry, I cannot help with that."))
            window_with_language_model (str "A short page.") [])) = 0.
Proof. repeat split; vm_compute; reflexivity. Qed.

(** ** [JSON.parse] never runs out of fuel *)

Section JsonFuel.
Import JSON.

Lemma skip_ws_length (s : jsstring) : length (skip_ws s) <= length s.
Proof.
  induction s as [|c s IH]; cbn; [lia|].
  destruct (is_json_ws c); cbn; lia.
Qed.

Lemma span_length (p : char -> bool) (s a r : jsstring) :
  span p s = (a, r) -> length s = length a + length r.
Proof.
  intros Hs. apply span_spec in Hs as (-> & _). apply length_app.
Qed.

Lemma strip_prefix_length (pre s r : jsstring) :
  strip_prefix pre s = Some r -> length s = length pre + length r.
Proof.
  revert s; induction pre as [|p pre IH]; intros s; cbn.
  - now intros [= ->].
  - destruct s as [|c s]; [discriminate|].
    destruct (N.eqb p c); [|discriminate].
    intros Hr. apply IH in Hr. cbn. lia.
Qed.

Lemma expect_length (c : char) (s r : jsstring) :
  expect c s = Some r -> length s = S (length r).
Proof.
  destruct s as [|x s]; cbn; [discriminate|].
  destruct (N.eqb x c); [|discriminate]. now intros [= ->].
Qed.

Lemma parse_chars_length (s acc k r : jsstring) :
  parse_chars s acc = Some (k, r) -> length r < length s.
Proof.
  remember (length s) as n eqn:Hn.
  revert s acc Hn. induction n as [n IH] using lt_wf_ind.
  intros s acc -> Hp.
  destruct s as [|c s]; [discriminate|]. cbn in Hp.
  destruct (N.eqb c 34); [injection Hp as _ <-; cbn; lia|].
  destruct (N.eqb c 92).
  - destruct s as [|e s]; [discriminate|].
    destruct (N.eqb e 117).
    + destruct s as [|h1 [|h2 [|h3 [|h4 s]]]]; try discriminate.
      destruct (hex4 h1 h2 h3 h4); [|discriminate].
      apply (IH (length s)) in Hp; cbn; auto; lia.
    + destruct (simple_escape e); [|discriminate].
      apply (IH (length s)) in Hp; cbn; auto; lia.
  - destruct (N.ltb c 32); [discriminate|].
    apply (IH (length s)) in Hp; cbn; auto; lia.
Qed.

Lemma number_sign_length (s : jsstring) :
  length (snd (number_sign s)) <= length s.
Proof.
  destruct s as [|c r]; cbn; [lia|]. destruct (N.eqb c 45); cbn; lia.
Qed.

Lemma number_int_length (s i r : jsstring) :
  number_int s = (i, r) -> length s = length i + length r.
Proof.
  destruct s as [|c s]; cbn [number_int].
  - now intros [= <- <-].
  - destruct (N.eqb c 48); [now intros [= <- <-]|]. apply span_length.
Qed.

Lemma number_fraction_length (s f r : jsstring) :
  number_fraction s = Some (f, r) -> length r <= length s.
Proof.
  destruct s as [|c s]; cbn [number_fraction].
  - now intros [= _ <-].
  - destruct (N.eqb c 46); [|intros [= _ <-]; lia].
    destruct (span is_digit s) as [a r'] eqn:Hs.
    apply span_length in Hs.
    destruct a; [discriminate|]. intros [= _ <-]. cbn. lia.
Qed.

Lemma number_exponent_length (s r : jsstring) (e : Z) :
  number_exponent s = Some (e, r) -> length r <= length s.
Proof.
  destruct s as [|c s]; cbn [number_exponent].
  - now intros [= _ <-].
  - destruct (N.eqb c 101 || N.eqb c 69); [|intros [= _ <-]; lia].
    assert (Hsign : forall m r1,
              match s with
              | sg :: r0 =>
                  if N.eqb sg 45 then (true, r0)
                  else if N.eqb sg 43 then (false, r0) else (false, s)
              | [] => (false, s)
              end = (m, r1) -> length r1 <= length s).
    { intros m r1. destruct s as [|sg r0]; [intros [= _ <-]; lia|].
      destruct (N.eqb sg 45); [intros [= _ <-]; cbn; lia|].
      destruct (N.eqb sg 43); intros [= _ <-]; cbn; lia. }
    destruct (match s with
              | sg :: r0 =>
                  if N.eqb sg 45 then (true, r0)
                  else if N.eqb sg 43 then (false, r0) else (false, s)
              | [] => (false, s)
              end) as [minus r1] eqn:Hm.
    specialize (Hsign minus r1 eq_refl).
    destruct (span is_digit r1) as [a r2] eqn:Hs.
    apply span_length in Hs.
    destruct a; [discriminate|]. intros [= _ <-]. cbn. lia.
Qed.

Lemma parse_number_length (s r : jsstring) (n : json) :
  parse_number s = Some (n, r) -> length r < length s.
Proof.
  unfold parse_number.
  pose proof (number_sign_length s) as Hsign.
  destruct (number_sign s) as [negative s1]. cbn [snd] in Hsign.
  destruct (number_int s1) as [i s2] eqn:Hi.
  apply number_int_length in Hi.
  destruct i as [|d i]; [discriminate|].
  destruct (number_fraction s2) as [[frac s3]|] eqn:Hf; [|discriminate].
  apply number_fraction_length in Hf.
  destruct (number_exponent s3) as [[e s4]|] eqn:He; [|discriminate].
  apply number_exponent_length in He.
  intros [= _ <-]. cbn in Hi. lia.
Qed.
End JsonFuel.

Section JsonTotal.
Import JSON.

Lemma settled_error (s : jsstring) : settled SyntaxError s.
Proof. split; [discriminate | intros v r; discriminate]. Qed.

Lemma settled_parsed (v : json) (r s : jsstring) :
  length r < length s -> settled (Parsed v r) s.
Proof. intros Hlt. split; [discriminate|]. now intros v' r' [= _ <-]. Qed.

Lemma settled_shorter (res : parse_result) (s s' : jsstring) :
  settled res s -> length s <= length s' -> settled res s'.
Proof.
  intros [Hne Hlen] Hle. split; auto.
  intros v r Hr. specialize (Hlen v r Hr). lia.
Qed.

(** With fuel for two calls per code unit, the three parsers settle. *)
Lemma parse_settles (fuel : nat) :
  (forall s, 2 * length s + 1 <= fuel -> settled (parse_value fuel s) s) /\
  (forall s acc, 2 * length s + 2 <= fuel ->
     settled (parse_elements fuel s acc) s) /\
  (forall s acc, 2 * length s + 2 <= fuel ->
     settled (parse_members fuel s acc) s).
Proof.
  induction fuel as [|fuel (IHv & IHe & IHm)];
    [repeat split; intros; lia|].
  split; [|split].
  - intros s Hfuel. cbn [parse_value].
    destruct s as [|c r]; [apply settled_error|].
    cbn [length] in Hfuel.
    destruct (N.eqb c 123).
    { pose proof (skip_ws_length r) as Hws.
      destruct (skip_ws r) as [|x r']; [apply settled_error|].
      cbn [length] in Hws.
      destruct (N.eqb x 125); [apply settled_parsed; cbn; lia|].
      apply settled_shorter with (s := x :: r'); [|cbn; lia].
      apply IHm. cbn. lia. }
    destruct (N.eqb c 91).
    { pose proof (skip_ws_length r) as Hws.
      destruct (skip_ws r) as [|x r']; [apply settled_error|].
      cbn [length] in Hws.
      destruct (N.eqb x 93); [apply settled_parsed; cbn; lia|].
      apply settled_shorter with (s := x :: r'); [|cbn; lia].
      apply IHe. cbn. lia. }
    destruct (N.eqb c 34).
    { destruct (parse_chars r []) as [[chars r']|] eqn:Hc;
        [|apply settled_error].
      apply parse_chars_length in Hc. apply settled_parsed. cbn. lia. }
    destruct (strip_prefix (str "true") (c :: r)) as [r1|] eqn:H1.
    { apply strip_prefix_length in H1. apply settled_parsed.
      rewrite H1. cbn. lia. }
    destruct (strip_prefix (str "false") (c :: r)) as [r2|] eqn:H2.
    { apply strip_prefix_length in H2. apply settled_parsed.
      rewrite H2. cbn. lia. }
    destruct (strip_prefix (str "null") (c :: r)) as [r3|] eqn:H3.
    { apply strip_prefix_length in H3. apply settled_parsed.
      rewrite H3. cbn. lia. }
    destruct (parse_number (c :: r)) as [[n r']|] eqn:Hn;
      [|apply settled_error].
    apply parse_number_length in Hn. now apply settled_parsed.
  - intros s acc Hfuel. cbn [parse_elements].
    destruct (IHv s ltac:(lia)) as [Hne Hlen].
    destruct (parse_value fuel s) as [v r| |] eqn:Hv;
      [|apply settled_error|congruence].
    specialize (Hlen v r eq_refl).
    pose proof (skip_ws_length r) as Hws.
    destruct (skip_ws r) as [|x r']; [apply settled_error|].
    cbn [length] in Hws.
    destruct (N.eqb x 44).
    { pose proof (skip_ws_length r') as Hws'.
      apply settled_shorter with (s := skip_ws r'); [|lia].
      apply IHe. lia. }
    destruct (N.eqb x 93); [apply settled_parsed; lia | apply settled_error].
  - intros s acc Hfuel. cbn [parse_members].
    destruct (expect 34 s) as [r0|] eqn:H0; [|apply settled_error].
    apply expect_length in H0.
    destruct (parse_chars r0 []) as [[k r1]|] eqn:H1; [|apply settled_error].
    apply parse_chars_length in H1.
    pose proof (skip_ws_length r1) as Hws1.
    destruct (expect 58 (skip_ws r1)) as [r2|] eqn:H2; [|apply settled_error].
    apply expect_length in H2.
    pose proof (skip_ws_length r2) as Hws2.
    destruct (IHv (skip_ws r2) ltac:(lia)) as [Hne Hlen].
    destruct (parse_value fuel (skip_ws r2)) as [v r3| |] eqn:Hv;
      [|apply settled_error|congruence].
    specialize (Hlen v r3 eq_refl).
    pose proof (skip_ws_length r3) as Hws3.
    destruct (skip_ws r3) as [|x r4]; [apply settled_error|].
    cbn [length] in Hws3.
    destruct (N.eqb x 44).
    { pose proof (skip_ws_length r4) as Hws4.
      apply settled_shorter with (s := skip_ws r4); [|lia].
      apply IHm. lia. }
    destruct (N.eqb x 125); [apply settled_parsed; lia | apply settled_error].
Qed.

(** [JSON.parse] always answers: a value or a SyntaxError. *)
Lemma parse_total (text : jsstring) : parse text <> OutOfFuel.
Proof.
  unfold parse.
  pose proof (skip_ws_length text) as Hws.
  destruct (proj1 (parse_settles (2 * length text + 2)) (skip_ws text)
              ltac:(lia)) as [Hne _].
  destruct (parse_value (2 * length text + 2) (skip_ws text)) as [v r| |];
    [|discriminate|congruence].
  destruct (skip_ws r); discriminate.
Qed.
End JsonTotal.

(** * Further properties of the resolver *)

Section ResolverShape.
Import Popup.

Lemma getApiObject_cases (w : window) (d : apiDef) :
  (api (getApiObject w d) = VNull /\ path (getApiObject w d) = []) \/
  (truthy (api (getApiObject w d)) = true /\
   startsWith (path (getApiObject w d)) (str "window.") = true).
Proof.
  unfold getApiObject.
  destruct (namespace_is_ai d
            && (truthy (window_ai w)
                && truthy (member (window_ai w) (key d)))) eqn:Hai.
  - right. apply andb_prop in Hai as [_ Hai].
    apply andb_prop in Hai as [_ Hai]. split; [exact Hai | reflexivity].
  - destruct (truthy (lookup (key d) w)) eqn:Htop.
    + right. split; [exact Htop | reflexivity].
    + destruct (fallback d) as [f|]; [|left; split; reflexivity].
      destruct (truthy (VStr f) && truthy (lookup f w)) eqn:Hf.
      * right. apply andb_prop in Hf as [_ Hf].
        split; [exact Hf | reflexivity].
      * left. split; reflexivity.
Qed.

(** X1.  What [getApiObject] returns is either the pair of [null] and the
    empty path, or a truthy handle with a path that starts with
    ["window."]; so the path is empty exactly when the handle is [null],
    and probing an unresolved capability gives ['unavailable'] whatever
    the host and the args. *)
Theorem getApiObject_null_iff_no_path (w : window) (d : apiDef) :
  (path (getApiObject w d) = [] <-> api (getApiObject w d) = VNull) /\
  (api (getApiObject w d) <> VNull ->
   truthy (api (getApiObject w d)) = true /\
   startsWith (path (getApiObject w d)) (str "window.") = true) /\
  (path (getApiObject w d) = [] ->
   forall h args,
     checkAvailability h (api (getApiObject w d)) args
     = Returns (VStr (str "unavailable"))).
Proof.
  destruct (getApiObject_cases w d) as [[Ha Hp] | [Ha Hp]].
  - rewrite Ha, Hp. repeat split; auto; congruence.
  - assert (Hne : path (getApiObject w d) <> []).
    { intros Heq. rewrite Heq in Hp. discriminate Hp. }
    assert (Hnn : api (getApiObject w d) <> VNull).
    { intros Heq. rewrite Heq in Ha. discriminate Ha. }
    repeat split; auto; intros; congruence.
Qed.

(** X2.  The search order of [getApiObject]: a truthy [window.ai[key]]
    wins when the descriptor names the namespace ['ai'], whatever else the
    window binds; otherwise a truthy [window[key]] wins over the fallback;
    and a descriptor without the namespace ['ai'] is resolved from
    [window[key]] and [window[fallback]] alone, so two windows that agree
    on these give the same result. *)
Theorem getApiObject_search_order (w : window) (d : apiDef) :
  (namespace_is_ai d = true ->
   truthy (window_ai w) = true ->
   truthy (member (window_ai w) (key d)) = true ->
   getApiObject w d
   = {| api := member (window_ai w) (key d);
        path := str "window.ai." ++ key d |}) /\
  (namespace_is_ai d = false ->
   truthy (lookup (key d) w) = true ->
   getApiObject w d
   = {| api := lookup (key d) w; path := str "window." ++ key d |}) /\
  (namespace_is_ai d = false ->
   forall w',
     lookup (key d) w' = lookup (key d) w ->
     (forall f, fallback d = Some f -> lookup f w' = lookup f w) ->
     getApiObject w' d = getApiObject w d).
Proof.
  unfold getApiObject. repeat split.
  - intros -> -> ->. reflexivity.
  - intros -> ->. reflexivity.
  - intros -> w' Hkey Hfb. cbn [andb]. rewrite Hkey.
    destruct (truthy (lookup (key d) w)); [reflexivity|].
    destruct (fallback d) as [f|]; [|reflexivity].
    now rewrite (Hfb f eq_refl).
Qed.
End ResolverShape.

(** * Further properties of the availability probe *)

Section ProbeEdges.
Import Popup.

(** X3.  Without a handle, or with a handle that has no [availability]
    function, the probe does not depend on the host at all: a falsy handle
    gives ['unavailable'], a handle whose [availability] is not a function
    gives ['available_unknown_methods']. *)
Theorem checkAvailability_without_method (h : host) (apiObject args : value) :
  (truthy apiObject = false ->
   checkAvailability h apiObject args = Returns (VStr (str "unavailable"))) /\
  (truthy apiObject = true ->
   typeof (member apiObject (str "availability")) <> str "function" ->
   checkAvailability h apiObject args
   = Returns (VStr (str "available_unknown_methods"))).
Proof.
  unfold checkAvailability. split.
  - intros ->. reflexivity.
  - intros Ht Hty. rewrite Ht. cbn [negb]. unfold member in Hty.
    destruct (get apiObject (str "availability")) as [availability|e] eqn:Hg.
    + cbn [bind].
      destruct (str_eqb (typeof availability) (str "function")) eqn:Hs;
        [|reflexivity].
      apply str_eqb_eq in Hs. contradiction.
    + destruct apiObject; cbn in Hg, Ht; discriminate.
Qed.

(** X4.  When args are supplied and the call with args returns something
    other than [undefined], the call without arguments plays no part: two
    hosts that answer the call with args alike give the same status. *)
Theorem checkAvailability_args_first
  (h h' : host) (apiObject args availability v : value) :
  get apiObject (str "availability") = Returns availability ->
  truthy args = true ->
  is_undefined v = false ->
  call h availability [args] = Returns v ->
  call h' availability [args] = Returns v ->
  checkAvailability h apiObject args = checkAvailability h' apiObject args.
Proof.
  intros Hget Hargs Hu Hc Hc'. unfold checkAvailability.
  destruct (truthy apiObject); [|reflexivity]. cbn [negb].
  rewrite Hget. cbn [bind].
  destruct (str_eqb (typeof availability) (str "function")); [|reflexivity].
  rewrite Hargs, Hc, Hc', Hu. reflexivity.
Qed.

Lemma checkAvailability_args_first_witness :
  (get (handle_with (fn 0)) (str "availability") = Returns (fn 0) /\
   truthy translatorArgs = true /\
   is_undefined (VStr (str "readily")) = false /\
   call (host_const (VStr (str "readily"))) (fn 0) [translatorArgs]
     = Returns (VStr (str "readily")) /\
   call (fun _ callargs =>
           match callargs with
           | [] => Throws (Error (str "args required"))
           | _ => Returns (VStr (str "readily"))
           end) (fn 0) [translatorArgs]
     = Returns (VStr (str "readily"))) /\
  checkAvailability (host_const (VStr (str "readily"))) (handle_with (fn 0))
    translatorArgs
  = checkAvailability
      (fun _ callargs =>
         match callargs with
         | [] => Throws (Error (str "args required"))
         | _ => Returns (VStr (str "readily"))
         end) (handle_with (fn 0)) translatorArgs.
Proof.
  split; [repeat split|].
  exact (@checkAvailability_args_first
           (host_const (VStr (str "readily")))
           (fun _ callargs =>
              match callargs with
              | [] => Throws (Error (str "args required"))
              | _ => Returns (VStr (str "readily"))
              end)
           (handle_with (fn 0)) translatorArgs (fn 0) (VStr (str "readily"))
           eq_refl eq_refl eq_refl eq_refl eq_refl).
Defined.


(** X6.  A call with args that returns [undefined] counts like one that
    threw: the call without arguments decides, and if that one throws the
    status is ['error']; without args, a throwing call gives ['error']
    as well. *)
Theorem checkAvailability_undefined_falls_back
  (h : host) (apiObject args availability : value) :
  truthy apiObject = true ->
  get apiObject (str "availability") = Returns availability ->
  typeof availability = str "function" ->
  (truthy args = true ->
   call h availability [args] = Returns VUndefined ->
   (forall v, call h availability [] = Returns v ->
      checkAvailability h apiObject args
      = checkAvailability h apiObject VUndefined) /\
   (forall e, call h availability [] = Throws e ->
      checkAvailability h apiObject args = Returns (VStr (str "error")))) /\
  (truthy args = false ->
   forall e, call h availability [] = Throws e ->
     checkAvailability h apiObject args = Returns (VStr (str "error"))).
Proof.
  intros Hapi Hget Hty. unfold checkAvailability.
  rewrite Hapi, Hget. cbn [negb bind]. rewrite Hty, str_eqb_refl.
  split.
  - intros Hargs Hc. rewrite Hargs, Hc. cbn [truthy is_undefined]. split.
    + intros v Hv. rewrite Hv. reflexivity.
    + intros e He. rewrite He. reflexivity.
  - intros Hargs e He. rewrite Hargs, He. reflexivity.
Qed.

Lemma checkAvailability_undefined_falls_back_witness :
  (truthy (handle_with (fn 0)) = true /\
   get (handle_with (fn 0)) (str "availability") = Returns (fn 0) /\
   typeof (fn 0) = str "function" /\
   truthy VUndefined = false /\
   call host_throwing (fn 0) [] = Throws (Error (str "not supported"))) /\
  checkAvailability host_throwing (handle_with (fn 0)) VUndefined
  = Returns (VStr (str "error")).
Proof.
  split; [repeat split|].
  exact (proj2 (@checkAvailability_undefined_falls_back
                  host_throwing (handle_with (fn 0)) VUndefined (fn 0)
                  eq_refl eq_refl eq_refl)
           eq_refl (Error (str "not supported")) eq_refl).
Defined.
End ProbeEdges.

(** * Further properties of the summarization engine *)

Section SummarizationRuns.
Import Part000.

Lemma base_case_run
  (H : model_host) (fuel : nat) (text result : jsstring) (log : list event) :
  length text <= CHUNK_SIZE ->
  create_result H log summarizerOptions = Returns tt ->
  summarize_result H (log ++ [EvCreate (created log) summarizerOptions])
    (created log) text = Returns result ->
  runSummarization H (S fuel) text log
  = (match destroy_result H
             (log ++ [EvCreate (created log) summarizerOptions;
                      EvSummarize (created log) text]) (created log) with
     | Returns _ => Returns (Some result)
     | Throws e => Throws e
     end,
     log ++ [EvCreate (created log) summarizerOptions;
             EvSummarize (created log) text;
             EvDestroy (created log)]).
Proof.
  intros Hlen Hc Hs. cbn [runSummarization].
  apply Nat.leb_le in Hlen. rewrite Hlen.
  unfold bindM, create. rewrite Hc.
  unfold summarize. rewrite Hs.
  unfold destroy. rewrite <- !app_assoc. cbn [app].
  destruct (destroy_result H _ (created log)); reflexivity.
Qed.

(** X7.  The base case, once the session exists and [summarize] has
    returned: the calls are one [create], one [summarize] of the whole
    text and one [destroy], in this order; the summary is returned when
    [destroy] returns, and an error thrown by [destroy] replaces it. *)
Theorem runSummarization_base_case
  (H : model_host) (fuel : nat) (text result : jsstring) (log : list event) :
  length text <= CHUNK_SIZE ->
  create_result H log summarizerOptions = Returns tt ->
  summarize_result H (log ++ [EvCreate (created log) summarizerOptions])
    (created log) text = Returns result ->
  snd (runSummarization H (S fuel) text log)
  = log ++ [EvCreate (created log) summarizerOptions;
            EvSummarize (created log) text;
            EvDestroy (created log)] /\
  match destroy_result H
          (log ++ [EvCreate (created log) summarizerOptions;
                   EvSummarize (created log) text]) (created log) with
  | Returns _ =>
      fst (runSummarization H (S fuel) text log) = Returns (Some result)
  | Throws e => fst (runSummarization H (S fuel) text log) = Throws e
  end.
Proof.
  intros Hlen Hc Hs. rewrite (base_case_run H fuel text log Hlen Hc Hs).
  cbn [fst snd]. split; [reflexivity|].
  destruct (destroy_result H _ (created log)); reflexivity.
Qed.

Lemma runSummarization_base_case_witness :
  (length (str "A short page.") <= CHUNK_SIZE /\
   create_result (host_of (fun t => t)) [] summarizerOptions = Returns tt /\
   summarize_result (host_of (fun t => t))
     ([] ++ [EvCreate (created []) summarizerOptions]) (created [])
     (str "A short page.") = Returns (str "A short page.")) /\
  snd (runSummarization (host_of (fun t => t)) 1 (str "A short page.") [])
  = [] ++ [EvCreate (created []) summarizerOptions;
           EvSummarize (created []) (str "A short page.");
           EvDestroy (created [])].
Proof.
  assert (Hlen : length (str "A short page.") <= CHUNK_SIZE).
  { apply Nat.leb_le. reflexivity. }
  split; [repeat split; exact Hlen|].
  exact (proj1 (@runSummarization_base_case (host_of (fun t => t)) 0
                  (str "A short page.") (str "A short page.") []
                  Hlen eq_refl eq_refl)).
Defined.

(** X8.  When the session cannot be created, nothing else happens: for a
    short and for a long text alike there is no [summarize], no [destroy]
    and no further pass, and the error of [create] reaches the caller. *)
Theorem runSummarization_create_fails
  (H : model_host) (fuel : nat) (text : jsstring) (e : value)
  (log : list event) :
  create_result H log summarizerOptions = Throws e ->
  runSummarization H (S fuel) text log
  = (Throws e, log ++ [EvCreateFailed summarizerOptions]).
Proof.
  intros Hc. cbn [runSummarization].
  destruct (length text <=? CHUNK_SIZE);
    unfold bindM, create; rewrite Hc; reflexivity.
Qed.

Lemma runSummarization_create_fails_witness :
  create_result host_without_sessions [] summarizerOptions
    = Throws (Error (str "model unavailable")) /\
  runSummarization host_without_sessions 1 (str "A short page.") []
  = (Throws (Error (str "model unavailable")),
     [] ++ [EvCreateFailed summarizerOptions]).
Proof.
  split; [reflexivity|].
  exact (@runSummarization_create_fails host_without_sessions 0
           (str "A short page.") (Error (str "model unavailable")) []
           eq_refl).
Defined.
End SummarizationRuns.

Section SummarizationPasses.
Import Part000.




Lemma summarize_each_pure (f : jsstring -> jsstring) (session : nat)
  (chunks acc : list jsstring) (log : list event) :
  summarize_each (host_of f) session chunks acc log
  = (Returns (acc ++ map f chunks), log ++ map (EvSummarize session) chunks).
Proof.
  revert acc log; induction chunks as [|chunk rest IH]; intros acc log;
    cbn [summarize_each map].
  - unfold ret. now rewrite !app_nil_r.
  - unfold bindM, summarize at 1. cbn [summarize_result host_of].
    rewrite IH, <- !app_assoc. reflexivity.
Qed.

(** One pass over a long text on a host whose [summarize] computes [f]. *)
Lemma batch_pass_pure (f : jsstring -> jsstring) (fuel : nat)
  (text : jsstring) (log : list event) :
  CHUNK_SIZE < length text ->
  runSummarization (host_of f) (S fuel) text log
  = runSummarization (host_of f) fuel
      (join [LF; LF] (map f (split_chunks text)))
      (log ++ EvCreate (created log) summarizerOptions
           :: map (EvSummarize (created log)) (split_chunks text)
           ++ [EvDestroy (created log)]).
Proof.
  intros Hlen. cbn [runSummarization].
  apply Nat.leb_gt in Hlen. rewrite Hlen.
  unfold bindM at 1, create. cbn [create_result host_of].
  unfold bindM at 1, try_finally. rewrite summarize_each_pure.
  unfold destroy. cbn [destroy_result host_of app].
  rewrite <- !app_assoc. reflexivity.
Qed.

(** X9.  One pass over a text longer than [CHUNK_SIZE], on a host whose
    calls succeed: one session is created, every chunk is summarized on
    it in order, the session is destroyed, and the summaries joined by a
    blank line are summarized in turn by the next pass. *)
Theorem runSummarization_batch_pass (f : jsstring -> jsstring) (fuel : nat)
  (text : jsstring) (log : list event) :
  CHUNK_SIZE < length text ->
  runSummarization (host_of f) (S fuel) text log
  = runSummarization (host_of f) fuel
      (join [LF; LF] (map f (split_chunks text)))
      (log ++ EvCreate (created log) summarizerOptions
           :: map (EvSummarize (created log)) (split_chunks text)
           ++ [EvDestroy (created log)]).
Proof. exact (batch_pass_pure f fuel text log). Qed.

Lemma runSummarization_batch_pass_witness :
  CHUNK_SIZE < length (repeat 97%N 4001) /\
  runSummarization (host_of (fun _ => str "summary")) 1 (repeat 97%N 4001) []
  = runSummarization (host_of (fun _ => str "summary")) 0
      (join [LF; LF]
         (map (fun _ => str "summary") (split_chunks (repeat 97%N 4001))))
      ([] ++ EvCreate (created []) summarizerOptions
          :: map (EvSummarize (created [])) (split_chunks (repeat 97%N 4001))
          ++ [EvDestroy (created [])]).
Proof.
  assert (Hlen : CHUNK_SIZE < length (repeat 97%N 4001)).
  { apply Nat.ltb_lt. vm_compute. reflexivity. }
  split; [exact Hlen|].
  exact (@runSummarization_batch_pass (fun _ => str "summary") 0
           (repeat 97%N 4001) [] Hlen).
Defined.


End SummarizationPasses.


Section SummarizationDiverges.
Import Part000.

Lemma sentence_at_terminator (c : char) (s : jsstring) :
  is_terminator c = true -> sentence_at (c :: s) = None.
Proof.
  intros Hc. unfold sentence_at. cbn [span].
  unfold is_not_terminator at 1. rewrite Hc. cbn [negb].
  now destruct (span is_terminator (c :: s)).
Qed.

(** Terminators followed by text without terminator hold no sentence. *)
Lemma match_all_unterminated (fuel : nat) (pre body : jsstring) :
  forallb is_terminator pre = true ->
  forallb is_not_terminator body = true ->
  match_all fuel (pre ++ body) = [].
Proof.
  intros Hpre Hbody. revert fuel.
  induction pre as [|c pre IH]; intros fuel.
  - now apply match_all_no_terminator.
  - cbn in Hpre. apply andb_prop in Hpre as [Hc Hpre].
    destruct fuel as [|fuel]; [reflexivity|].
    cbn [match_all app]. rewrite (@sentence_at_terminator c (pre ++ body) Hc).
    now apply IH.
Qed.

Lemma split_chunks_unterminated (pre body : jsstring) :
  forallb is_terminator pre = true ->
  forallb is_not_terminator body = true ->
  CHUNK_SIZE < length (pre ++ body) ->
  split_chunks (pre ++ body) = [[]; pre ++ body].
Proof.
  intros Hpre Hbody Hlen.
  unfold split_chunks, sentences_of.
  rewrite (@match_all_unterminated (length (pre ++ body)) pre body Hpre Hbody).
  unfold chunks_of_sentences. cbn [pack app].
  apply Nat.ltb_lt in Hlen. rewrite Hlen. cbn [pack app].
  destruct (pre ++ body) eqn:Heq; [discriminate Hlen | reflexivity].
Qed.

Lemma echo_never_finishes (fuel : nat) (pre body : jsstring)
  (log : list event) :
  forallb is_terminator pre = true ->
  forallb is_not_terminator body = true ->
  CHUNK_SIZE < length body ->
  fst (runSummarization (host_of (fun t => t)) fuel (pre ++ body) log)
  = Returns None.
Proof.
  intros Hpre Hbody Hlen. revert pre log Hpre.
  induction fuel as [|fuel IH]; intros pre log Hpre; [reflexivity|].
  assert (Hlong : CHUNK_SIZE < length (pre ++ body))
    by (rewrite length_app; lia).
  rewrite batch_pass_pure by exact Hlong.
  rewrite (@split_chunks_unterminated pre body Hpre Hbody Hlong).
  cbn [map join app].
  change (LF :: LF :: pre ++ body) with ((LF :: LF :: pre) ++ body).
  apply IH. cbn [forallb]. now rewrite Hpre.
Qed.

(** X11.  The recursion has no bound of its own: on a summarizer that
    returns its input, a text longer than [CHUNK_SIZE] without any
    terminator is never finished.  Every pass makes it two characters
    longer, so whatever number of passes is allowed, the run is still
    going on when they are used up. *)
Theorem runSummarization_echo_diverges (fuel : nat) (body : jsstring)
  (log : list event) :
  forallb is_not_terminator body = true ->
  CHUNK_SIZE < length body ->
  fst (runSummarization (host_of (fun t => t)) fuel body log) = Returns None.
Proof.
  intros Hbody Hlen.
  exact (@echo_never_finishes fuel [] body log eq_refl Hbody Hlen).
Qed.
End SummarizationDiverges.

Lemma runSummarization_echo_diverges_witness :
  (forallb Part000.is_not_terminator (repeat 97%N 4001) = true /\
   Part000.CHUNK_SIZE < length (repeat 97%N 4001)) /\
  fst (Part000.runSummarization (host_of (fun t => t)) 3
         (repeat 97%N 4001) []) = Returns None.
Proof.
  assert (Hbody : forallb Part000.is_not_terminator (repeat 97%N 4001) = true).
  { vm_compute. reflexivity. }
  assert (Hlen : Part000.CHUNK_SIZE < length (repeat 97%N 4001)).
  { apply Nat.ltb_lt. vm_compute. reflexivity. }
  split; [split; [exact Hbody | exact Hlen]|].
  exact (@runSummarization_echo_diverges 3 (repeat 97%N 4001) [] Hbody Hlen).
Defined.

Section EmptyChunk.
Import Part000.

Lemma pack_nonempty (sentences chunks : list jsstring) (cur : jsstring) :
  cur <> [] ->
  Forall (fun s => s <> []) sentences ->
  exists more,
    fst (pack sentences chunks cur) = chunks ++ more /\
    Forall (fun c => c <> []) more /\
    snd (pack sentences chunks cur) <> [].
Proof.
  intros Hcur Hall. revert chunks cur Hcur.
  induction Hall as [|x rest Hx _ IH]; intros chunks cur Hcur; cbn [pack].
  - exists []. cbn. rewrite app_nil_r. auto.
  - destruct (CHUNK_SIZE <? length (cur ++ x)).
    + destruct (IH (chunks ++ [cur]) x Hx) as (more & Hf & Hm & Hs).
      exists (cur :: more). rewrite Hf, <- app_assoc. auto.
    + apply IH. destruct cur; [congruence | discriminate].
Qed.

Lemma chunks_of_sentences_shape (s1 : jsstring) (rest : list jsstring) :
  Forall (fun s => s <> []) (s1 :: rest) ->
  exists body,
    chunks_of_sentences (s1 :: rest)
    = (if CHUNK_SIZE <? length s1 then [[]] else []) ++ body /\
    body <> [] /\ Forall (fun c => c <> []) body.
Proof.
  intros Hall. inversion Hall as [|? ? Hs1 Hrest]; subst.
  unfold chunks_of_sentences. cbn [pack app].
  destruct (CHUNK_SIZE <? length s1).
  - match goal with
    | |- context [pack rest ?ch s1] =>
        destruct (@pack_nonempty rest ch s1 Hs1 Hrest)
          as (more & Hf & Hm & Hs);
        destruct (pack rest ch s1) as [chunks cur]
    end. cbn [fst snd] in *.
    subst chunks. destruct cur as [|c cur]; [congruence|].
    exists (more ++ [c :: cur]).
    split; [reflexivity|]. split; [now destruct more|].
    apply Forall_app. split; [exact Hm|].
    constructor; [discriminate | constructor].
  - match goal with
    | |- context [pack rest ?ch s1] =>
        destruct (@pack_nonempty rest ch s1 Hs1 Hrest)
          as (more & Hf & Hm & Hs);
        destruct (pack rest ch s1) as [chunks cur]
    end. cbn [fst snd] in *.
    subst chunks. destruct cur as [|c cur]; [congruence|].
    exists (more ++ [c :: cur]).
    split; [reflexivity|]. split; [now destruct more|].
    apply Forall_app. split; [exact Hm|].
    constructor; [discriminate | constructor].
Qed.

Lemma sentences_of_nonempty (text : jsstring) :
  text <> [] ->
  exists s1 rest,
    sentences_of text = s1 :: rest /\ Forall (fun s => s <> []) (s1 :: rest).
Proof.
  intros Htext. destruct (sentences_of_cases text) as [[_ ->] | [Hne ->]].
  - exists text, []. split; [reflexivity|]. constructor; auto.
  - pose proof (match_all_sentences (length text) text) as Hs.
    destruct (match_all (length text) text) as [|s1 rest]; [congruence|].
    exists s1, rest. split; [reflexivity|].
    eapply Forall_impl; [|exact Hs].
    intros m Hm. now apply is_sentence_starts_clean in Hm.
Qed.

(** X12.  The chunks of a non-empty text are never empty, with one
    exception: when the first sentence alone is longer than [CHUNK_SIZE],
    the list of chunks starts with an empty chunk (the summarizer is then
    asked to summarize the empty string first). *)
Theorem split_chunks_empty_chunk_only_first (text : jsstring) :
  text <> [] ->
  exists body,
    split_chunks text
    = (if CHUNK_SIZE <? length (hd [] (sentences_of text))
       then [[]] else []) ++ body /\
    body <> [] /\ Forall (fun c => c <> []) body.
Proof.
  intros Htext.
  destruct (@sentences_of_nonempty text Htext) as (s1 & rest & Heq & Hall).
  unfold split_chunks. rewrite Heq. cbn [hd].
  now apply chunks_of_sentences_shape.
Qed.
End EmptyChunk.

Lemma split_chunks_empty_chunk_only_first_witness :
  str "One. Two." <> [] /\
  exists body,
    Part000.split_chunks (str "One. Two.")
    = (if Part000.CHUNK_SIZE
          <? length (hd [] (Part000.sentences_of (str "One. Two.")))
       then [[]] else []) ++ body /\
    body <> [] /\ Forall (fun c => c <> []) body.
Proof.
  assert (Hne : str "One. Two." <> []) by discriminate.
  split; [exact Hne|].
  exact (@split_chunks_empty_chunk_only_first (str "One. Two.") Hne).
Defined.

(** * Further properties of the scan phase *)

Section ScanRuns.
Import Popup.

Lemma renderCategory_well_formed (cat : jsstring)
  (members : list (jsstring * JSON.json)) :
  category_well_formed cat members ->
  renderCategory (JSON.JObject members) cat = Returns (inputs_for cat members).
Proof.
  unfold renderCategory, inputs_for, words_in.
  intros [-> | [elements ->]]; reflexivity.
Qed.

(** X13.  For a word map whose categories are arrays (or missing), the
    words form gets exactly one input per listed word: first the nouns,
    then the verbs, then the adjectives, each in the order of its list
    and tagged with its category; a missing or empty category adds
    nothing. *)
Theorem renderWordsForm_one_input_per_word
  (members : list (jsstring * JSON.json)) :
  category_well_formed (str "nouns") members ->
  category_well_formed (str "verbs") members ->
  category_well_formed (str "adjectives") members ->
  renderWordsForm (JSON.JObject members)
  = Returns (inputs_for (str "nouns") members
             ++ inputs_for (str "verbs") members
             ++ inputs_for (str "adjectives") members) /\
  length (inputs_for (str "nouns") members
          ++ inputs_for (str "verbs") members
          ++ inputs_for (str "adjectives") members)
  = length (words_in (str "nouns") members)
    + length (words_in (str "verbs") members)
    + length (words_in (str "adjectives") members).
Proof.
  intros Hn Hv Ha. split.
  - unfold renderWordsForm, categories. cbn [renderCategories].
    rewrite (renderCategory_well_formed Hn),
            (renderCategory_well_formed Hv),
            (renderCategory_well_formed Ha).
    cbn [bind]. now rewrite app_nil_r.
  - unfold inputs_for. rewrite !length_app, !length_map. lia.
Qed.

Lemma renderWordsForm_one_input_per_word_witness :
  (category_well_formed (str "nouns")
     [(str "nouns", JSON.JArray [JSON.JString (str "cat")]);
      (str "adjectives", JSON.JArray [])] /\
   category_well_formed (str "verbs")
     [(str "nouns", JSON.JArray [JSON.JString (str "cat")]);
      (str "adjectives", JSON.JArray [])] /\
   category_well_formed (str "adjectives")
     [(str "nouns", JSON.JArray [JSON.JString (str "cat")]);
      (str "adjectives", JSON.JArray [])]) /\
  renderWordsForm
    (JSON.JObject
       [(str "nouns", JSON.JArray [JSON.JString (str "cat")]);
        (str "adjectives", JSON.JArray [])])
  = Returns
      (inputs_for (str "nouns")
         [(str "nouns", JSON.JArray [JSON.JString (str "cat")]);
          (str "adjectives", JSON.JArray [])]
       ++ inputs_for (str "verbs")
            [(str "nouns", JSON.JArray [JSON.JString (str "cat")]);
             (str "adjectives", JSON.JArray [])]
       ++ inputs_for (str "adjectives")
            [(str "nouns", JSON.JArray [JSON.JString (str "cat")]);
             (str "adjectives", JSON.JArray [])]).
Proof.
  assert (Hn : category_well_formed (str "nouns")
                 [(str "nouns", JSON.JArray [JSON.JString (str "cat")]);
                  (str "adjectives", JSON.JArray [])]).
  { right. eexists. reflexivity. }
  assert (Hv : category_well_formed (str "verbs")
                 [(str "nouns", JSON.JArray [JSON.JString (str "cat")]);
                  (str "adjectives", JSON.JArray [])]).
  { left. reflexivity. }
  assert (Ha : category_well_formed (str "adjectives")
                 [(str "nouns", JSON.JArray [JSON.JString (str "cat")]);
                  (str "adjectives", JSON.JArray [])]).
  { right. eexists. reflexivity. }
  split; [repeat split; assumption|].
  exact (proj1 (@renderWordsForm_one_input_per_word
                  [(str "nouns", JSON.JArray [JSON.JString (str "cat")]);
                   (str "adjectives", JSON.JArray [])] Hn Hv Ha)).
Defined.
End ScanRuns.

Section ScanOutcomes.
Import Popup.
Variable H : model_host.

Lemma scanClick_session_run (w : window) (pageText result : jsstring)
  (log : list event) :
  truthy (api (getApiObject w languageModelDef)) = true ->
  create_result H log VUndefined = Returns tt ->
  prompt_result H (log ++ [EvCreate (created log) VUndefined])
    (created log) (promptFor pageText) = Returns result ->
  scanClick H w pageText log
  = match parseResponse result with
    | Throws e =>
        (Returns (ErrorShown e),
         log ++ [EvCreate (created log) VUndefined;
                 EvPrompt (created log) (promptFor pageText)])
    | Returns parsed =>
        match renderWordsForm parsed with
        | Throws e =>
            (Returns (ErrorShown e),
             log ++ [EvCreate (created log) VUndefined;
                     EvPrompt (created log) (promptFor pageText)])
        | Returns inputs =>
            (match destroy_result H
                     (log ++ [EvCreate (created log) VUndefined;
                              EvPrompt (created log) (promptFor pageText)])
                     (created log) with
             | Returns _ => Returns (WordsShown parsed inputs)
             | Throws e => Returns (ErrorShown e)
             end,
             log ++ [EvCreate (created log) VUndefined;
                     EvPrompt (created log) (promptFor pageText);
                     EvDestroy (created log)])
        end
    end.
Proof.
  intros Hlm Hc Hp. unfold scanClick, try_catchM.
  change {| key := str "LanguageModel"; namespace := Some (str "ai");
            fallback := None |} with languageModelDef.
  rewrite Hlm. cbn [negb].
  unfold bindM, create. rewrite Hc.
  unfold prompt. rewrite Hp.
  unfold lift. rewrite <- !app_assoc. cbn [app].
  destruct (parseResponse result) as [parsed|e]; [|reflexivity].
  destruct (renderWordsForm parsed) as [inputs|e]; [|reflexivity].
  unfold destroy. rewrite <- !app_assoc. cbn [app].
  destruct (destroy_result H _ (created log)); reflexivity.
Qed.



(** X16.  A response that is JSON of the wrong shape ([null], or a
    category that is a string, a number or [true]) parses, but building
    the words form throws: the error is shown, and since [destroy] comes
    only after the form, the session is not destroyed. *)
Theorem scanClick_leaks_on_render_failure (w : window)
  (pageText result : jsstring) (parsed : JSON.json) (e : value)
  (log : list event) :
  truthy (api (getApiObject w languageModelDef)) = true ->
  create_result H log VUndefined = Returns tt ->
  prompt_result H (log ++ [EvCreate (created log) VUndefined])
    (created log) (promptFor pageText) = Returns result ->
  parseResponse result = Returns parsed ->
  renderWordsForm parsed = Throws e ->
  scanClick H w pageText log
  = (Returns (ErrorShown e),
     log ++ [EvCreate (created log) VUndefined;
             EvPrompt (created log) (promptFor pageText)]).
Proof.
  intros Hlm Hc Hp Hparse Hrender.
  now rewrite (scanClick_session_run w pageText log Hlm Hc Hp),
    Hparse, Hrender.
Qed.
End ScanOutcomes.


Lemma scanClick_leaks_on_render_failure_witness :
  (truthy (api (Popup.getApiObject window_with_language_model
                  languageModelDef)) = true /\
   create_result (host_of (fun _ => str "null")) [] VUndefined = Returns tt /\
   prompt_result (host_of (fun _ => str "null"))
     ([] ++ [EvCreate (created []) VUndefined]) (created [])
     (Popup.promptFor (str "The big cat sat.")) = Returns (str "null") /\
   Popup.parseResponse (str "null") = Returns JSON.JNull /\
   Popup.renderWordsForm JSON.JNull = Throws TypeError) /\
  Popup.scanClick (host_of (fun _ => str "null"))
    window_with_language_model (str "The big cat sat.") []
  = (Returns (Popup.ErrorShown TypeError),
     [] ++ [EvCreate (created []) VUndefined;
            EvPrompt (created []) (Popup.promptFor (str "The big cat sat."))]).
Proof.
  assert (Hparse : Popup.parseResponse (str "null") = Returns JSON.JNull).
  { vm_compute. reflexivity. }
  split; [repeat split; assumption|].
  exact (@scanClick_leaks_on_render_failure (host_of (fun _ => str "null"))
           window_with_language_model (str "The big cat sat.")
           (str "null") JSON.JNull TypeError []
           eq_refl eq_refl eq_refl Hparse eq_refl).
Defined.

(** * Further properties of the replace phase *)

Section ReplaceMore.
Import Popup.
Variable unicode_upper : char -> char.

Lemma nodeValueAfter_returns (replacementsMap : list (jsstring * jsstring))
  (nodeValue : jsstring) :
  exists v, nodeValueAfter unicode_upper replacementsMap nodeValue = Returns v.
Proof.
  unfold nodeValueAfter, replaceInNode.
  destruct (replaceEntries_returns unicode_upper replacementsMap
              (nodeValue, false)) as [[text modified] Hr].
  rewrite Hr. cbn [bind]. destruct modified; cbn [bind]; eauto.
Qed.

Lemma nodeValueAfter_untouched (replacementsMap : list (jsstring * jsstring))
  (nodeValue : jsstring) :
  Forall (fun e => test unicode_upper (fst e) nodeValue = false)
         replacementsMap ->
  nodeValueAfter unicode_upper replacementsMap nodeValue = Returns nodeValue.
Proof.
  intros Hall. unfold nodeValueAfter.
  apply replaceInNode_untouched in Hall. now rewrite Hall.
Qed.

(** X17.  The injected function never throws, whatever characters the
    words of the map contain; it visits every text node once (as many
    values come out as went in), and a node in which no word of the map
    occurs keeps its value. *)
Theorem replaceTextNodes_total (replacementsMap : list (jsstring * jsstring))
  (nodes : list jsstring) :
  exists values,
    replaceTextNodes unicode_upper replacementsMap nodes = Returns values /\
    length values = length nodes /\
    forall i nodeValue,
      nth_error nodes i = Some nodeValue ->
      Forall (fun e => test unicode_upper (fst e) nodeValue = false)
             replacementsMap ->
      nth_error values i = Some nodeValue.
Proof.
  induction nodes as [|node rest (values & Hrun & Hlen & Hkeep)];
    cbn [replaceTextNodes].
  - exists []. repeat split. intros [|i] v; discriminate.
  - destruct (nodeValueAfter_returns replacementsMap node) as [v Hv].
    rewrite Hv, Hrun. cbn [bind]. exists (v :: values).
    split; [reflexivity|]. split; [cbn; now rewrite Hlen|].
    intros [|i] nodeValue Hnth Hall; cbn in Hnth |- *.
    + injection Hnth as ->.
      rewrite (nodeValueAfter_untouched _ Hall) in Hv. congruence.
    + now apply Hkeep.
Qed.

Lemma replace_from_no_match (literal replacement before s : jsstring) :
  test unicode_upper literal s = false ->
  replace_from unicode_upper literal replacement before s 0 = s.
Proof.
  revert before; induction s as [|c s IH]; intros before Ht.
  - cbn in Ht. rewrite orb_false_r in Ht.
    destruct literal; [discriminate Ht | reflexivity].
  - cbn [test] in Ht. apply orb_false_elim in Ht as [Hm Ht].
    cbn [replace_from]. rewrite Hm. f_equal. now apply IH.
Qed.

(** X18.  [replace] changes a text only where the word occurs: on a text
    in which [test] finds no match it returns the text as it is,
    whatever the replacement. *)
Theorem replace_without_match (literal text replacement : jsstring) :
  test unicode_upper literal text = false ->
  Popup.replace unicode_upper literal text replacement = text.
Proof. intros Ht. unfold Popup.replace. now apply replace_from_no_match. Qed.

Lemma matches_at_canonical (literal literal' rest : jsstring) :
  map (canonicalize unicode_upper) literal
  = map (canonicalize unicode_upper) literal' ->
  matches_at unicode_upper literal (literal' ++ rest) = true.
Proof.
  revert literal'; induction literal as [|p literal IH];
    intros [|c literal'] Heq; try discriminate Heq; [reflexivity|].
  cbn in Heq. injection Heq as Hc Hrest.
  cbn [matches_at app]. rewrite Hc, N.eqb_refl. now apply IH.
Qed.

Lemma test_app_right (literal before s : jsstring) :
  test unicode_upper literal s = true ->
  test unicode_upper literal (before ++ s) = true.
Proof.
  intros Hs. induction before as [|c before IH]; [exact Hs|].
  cbn [app test]. rewrite IH. apply orb_true_r.
Qed.

(** X19.  Matching is by substring and ignores case: a word is found
    wherever a spelling of it that differs only in the case of its
    letters occurs in the text, also in the middle of a longer word. *)
Theorem test_finds_any_case (literal literal' before after : jsstring) :
  map (canonicalize unicode_upper) literal
  = map (canonicalize unicode_upper) literal' ->
  test unicode_upper literal (before ++ literal' ++ after) = true.
Proof.
  intros Heq. apply test_app_right.
  destruct (literal' ++ after) eqn:Hs; cbn [test];
    rewrite <- Hs, (matches_at_canonical _ _ after Heq); reflexivity.
Qed.
End ReplaceMore.

Lemma replace_without_match_witness :
  Popup.test (fun c => c) (str "dog") (str "The Cat sat.") = false /\
  Popup.replace (fun c => c) (str "dog") (str "The Cat sat.") (str "$&$&")
  = str "The Cat sat.".
Proof.
  split; [reflexivity|].
  exact (@replace_without_match (fun c => c) (str "dog")
           (str "The Cat sat.") (str "$&$&") eq_refl).
Defined.

Lemma test_finds_any_case_witness :
  map (Popup.canonicalize (fun c => c)) (str "cat")
  = map (Popup.canonicalize (fun c => c)) (str "CaT") /\
  Popup.test (fun c => c) (str "cat") (str "con" ++ str "CaT" ++ str "enate")
  = true.
Proof.
  split; [reflexivity|].
  exact (@test_finds_any_case (fun c => c) (str "cat") (str "CaT")
           (str "con") (str "enate") eq_refl).
Defined.

Section ReplacePlain.
Import Popup.
Variable unicode_upper : char -> char.
Variables literal replacement : jsstring.
Hypothesis plain : forallb (fun c => negb (N.eqb c 36)) replacement = true.

Lemma replace_from_before (before before' s : jsstring) (skip : nat) :
  replace_from unicode_upper literal replacement before s skip
  = replace_from unicode_upper literal replacement before' s skip.
Proof.
  revert before before' skip; induction s as [|c s IH];
    intros before before' skip; cbn [replace_from].
  - destruct skip; [|reflexivity]. destruct literal; [|reflexivity].
    now rewrite !(getSubstitution_plain _ _ _ _ plain).
  - destruct skip as [|k]; [|apply IH].
    destruct (matches_at unicode_upper literal (c :: s)).
    + rewrite !(getSubstitution_plain _ _ _ _ plain).
      destruct literal;
        now rewrite (IH (before ++ [c]) (before' ++ [c])).
    + now rewrite (IH (before ++ [c]) (before' ++ [c])).
Qed.

Lemma replace_from_skip (x rest before : jsstring) :
  replace_from unicode_upper literal replacement before (x ++ rest) (length x)
  = replace_from unicode_upper literal replacement (before ++ x) rest 0.
Proof.
  revert before; induction x as [|c x IH]; intros before.
  - cbn [app length]. now rewrite app_nil_r.
  - cbn [app length]. destruct rest as [|r0 rest0] eqn:Hrest.
    + cbn [replace_from]. rewrite IH, <- app_assoc. reflexivity.
    + cbn [replace_from]. rewrite IH, <- app_assoc. reflexivity.
Qed.

Lemma replace_at_match (literal' rest : jsstring) :
  literal <> [] ->
  map (canonicalize unicode_upper) literal
  = map (canonicalize unicode_upper) literal' ->
  Popup.replace unicode_upper literal (literal' ++ rest) replacement
  = replacement ++ Popup.replace unicode_upper literal rest replacement.
Proof.
  intros Hne Heq. unfold Popup.replace.
  pose proof (matches_at_canonical unicode_upper _ _ rest Heq) as Hm.
  assert (Hlen : length literal = length literal').
  { apply (f_equal (@length _)) in Heq. now rewrite !length_map in Heq. }
  pose proof replace_from_skip as Hskip.
  pose proof replace_from_before as Hbefore.
  destruct literal as [|p l] eqn:Hl; [congruence|].
  destruct literal' as [|c x]; [discriminate Hlen|].
  cbn [app] in *. cbn [replace_from]. rewrite Hm.
  rewrite (getSubstitution_plain _ _ _ _ plain). f_equal.
  injection Hlen as Hlen. rewrite Hlen, Hskip.
  apply Hbefore.
Qed.

Lemma replace_at_mismatch (c : char) (s : jsstring) :
  matches_at unicode_upper literal (c :: s) = false ->
  Popup.replace unicode_upper literal (c :: s) replacement
  = c :: Popup.replace unicode_upper literal s replacement.
Proof.
  intros Hm. unfold Popup.replace. cbn [replace_from]. rewrite Hm.
  f_equal. apply replace_from_before.
Qed.
End ReplacePlain.

(** X20.  With a replacement that holds no dollar sign, replacing a
    non-empty word goes from left to right over matches that do not
    overlap: where the text starts with a spelling of the word, the
    replacement is put out as it is and the text behind the match is
    treated the same way; elsewhere one character is kept and the rest is
    treated the same way. *)
Theorem replace_plain_left_to_right (unicode_upper : char -> char)
  (literal replacement : jsstring) :
  forallb (fun c => negb (N.eqb c 36)) replacement = true ->
  literal <> [] ->
  Popup.replace unicode_upper literal [] replacement = [] /\
  (forall literal' rest,
     map (Popup.canonicalize unicode_upper) literal
     = map (Popup.canonicalize unicode_upper) literal' ->
     Popup.replace unicode_upper literal (literal' ++ rest) replacement
     = replacement ++ Popup.replace unicode_upper literal rest replacement) /\
  (forall c s,
     Popup.matches_at unicode_upper literal (c :: s) = false ->
     Popup.replace unicode_upper literal (c :: s) replacement
     = c :: Popup.replace unicode_upper literal s replacement).
Proof.
  intros Hplain Hne. split; [|split].
  - destruct literal; [congruence | reflexivity].
  - intros literal' rest Heq.
    now apply replace_at_match.
  - intros c s Hm. now apply replace_at_mismatch.
Qed.

Lemma replace_plain_left_to_right_witness :
  (forallb (fun c => negb (N.eqb c 36)) (str "dog") = true /\
   str "cat" <> []) /\
  Popup.replace (fun c => c) (str "cat") (str "Cat" ++ str "s and cats")
    (str "dog")
  = str "dog"
    ++ Popup.replace (fun c => c) (str "cat") (str "s and cats") (str "dog").
Proof.
  assert (Hne : str "cat" <> []) by discriminate.
  split; [split; [reflexivity | exact Hne]|].
  exact (proj1 (proj2 (@replace_plain_left_to_right (fun c => c)
                         (str "cat") (str "dog") eq_refl Hne))
           (str "Cat") (str "s and cats") eq_refl).
Defined.

(** * The replacements gathered from the words form *)

Section Gather.
Import Popup.

Lemma set_property_in (k v k' v' : jsstring)
  (props : list (jsstring * jsstring)) :
  In (k', v') (set_property k v props) ->
  (k' = k /\ v' = v) \/ In (k', v') props.
Proof.
  induction props as [|[k0 v0] rest IH]; cbn [set_property].
  - intros [[= <- <-] | []]. now left.
  - destruct (str_eqb k k0) eqn:Hk.
    + intros [[= <- <-] | Hin]; [now left | right; now right].
    + intros [Heq | Hin]; [right; now left|].
      destruct (IH Hin); [now left | right; now right].
Qed.

Lemma set_property_keys (k v k' : jsstring)
  (props : list (jsstring * jsstring)) :
  In k' (map fst (set_property k v props)) <->
  k' = k \/ In k' (map fst props).
Proof.
  induction props as [|[k0 v0] rest IH]; cbn [set_property].
  - cbn. intuition congruence.
  - destruct (str_eqb k k0) eqn:Hk.
    + apply str_eqb_eq in Hk. subst k0. cbn. intuition congruence.
    + cbn [map fst In]. rewrite IH. intuition congruence.
Qed.

Lemma set_property_NoDup (k v : jsstring) (props : list (jsstring * jsstring)) :
  NoDup (map fst props) -> NoDup (map fst (set_property k v props)).
Proof.
  induction props as [|[k0 v0] rest IH]; cbn [set_property].
  - intros _. cbn. constructor; [intros [] | constructor].
  - intros Hnd. cbn [map fst] in Hnd. inversion Hnd as [|? ? Hnotin Hrest]; subst.
    destruct (str_eqb k k0) eqn:Hk.
    + apply str_eqb_eq in Hk. subst k0. cbn. now constructor.
    + cbn [map fst]. constructor; [|now apply IH].
      rewrite set_property_keys. intros [-> | Hin]; [|contradiction].
      rewrite str_eqb_refl in Hk. discriminate.
Qed.

Lemma set_property_has (k v : jsstring) (props : list (jsstring * jsstring)) :
  In (k, v) (set_property k v props).
Proof.
  induction props as [|[k0 v0] rest IH]; cbn [set_property]; [now left|].
  destruct (str_eqb k k0); [now left | now right].
Qed.

Lemma set_property_keeps (k v k' v' : jsstring)
  (props : list (jsstring * jsstring)) :
  k' <> k -> In (k, v) props -> In (k, v) (set_property k' v' props).
Proof.
  intros Hne. induction props as [|[k0 v0] rest IH]; cbn [set_property];
    [intros []|].
  destruct (str_eqb k' k0) eqn:Hk.
  - apply str_eqb_eq in Hk. subst k0.
    intros [[= <- <-] | Hin]; [congruence | now right].
  - intros [Heq | Hin]; [now left | right; now apply IH].
Qed.

Lemma insert_indexed_perm (n : N) (e : jsstring * jsstring)
  (l : list (N * (jsstring * jsstring))) :
  Permutation (insert_indexed n e l) ((n, e) :: l).
Proof.
  induction l as [|[m e'] r IH]; cbn [insert_indexed]; [reflexivity|].
  destruct (N.ltb n m); [reflexivity|].
  rewrite IH. apply perm_swap.
Qed.

(** [Object.entries] lists every property once. *)
Lemma Object_entries_perm (props : list (jsstring * jsstring)) :
  Permutation (Object_entries props) props.
Proof.
  unfold Object_entries.
  induction props as [|e rest IH]; [reflexivity|].
  cbn [indexed fold_right filter]. unfold is_named at 1.
  fold (indexed rest).
  destruct (array_index (fst e)) as [n|].
  - rewrite insert_indexed_perm. cbn [map snd app]. now constructor.
  - rewrite <- Permutation_middle. now constructor.
Qed.

Lemma gather_step_from (all inputs : list form_input)
  (acc : list (jsstring * jsstring)) :
  incl inputs all ->
  gathered_from all acc ->
  gathered_from all
    (fold_left
       (fun replacements input =>
          match trim (input_value input) with
          | [] => replacements
          | v => assign replacements (dataset_original input) v
          end)
       inputs acc).
Proof.
  revert acc; induction inputs as [|input rest IH]; intros acc Hincl Hacc;
    cbn [fold_left]; [exact Hacc|].
  apply IH; [intros x Hx; apply Hincl; now right|].
  destruct (trim (input_value input)) as [|c v] eqn:Htrim; [exact Hacc|].
  unfold assign.
  destruct (str_eqb (dataset_original input) (str "__proto__")) eqn:Hproto;
    [exact Hacc|].
  destruct Hacc as [Hnd Hall]. split; [now apply set_property_NoDup|].
  intros k' v' Hin. apply set_property_in in Hin as [[-> ->] | Hin]; auto.
  split; [discriminate|]. split.
  - intros Heq. rewrite Heq, str_eqb_refl in Hproto. discriminate.
  - exists input. split; [apply Hincl; now left | auto].
Qed.

Lemma gatherReplacements_from (inputs : list form_input) :
  gathered_from inputs (gatherReplacements inputs).
Proof.
  apply gather_step_from; [apply incl_refl|].
  split; [constructor | intros k v []].
Qed.
End Gather.

Section GatherClaims.
Import Popup.

(** X21.  The replacements handed to the page: every entry has a name
    other than [__proto__] and a non-empty value, which is the trimmed
    value of an input of that name; no name occurs twice; so inputs left
    blank never produce an entry. *)
Theorem gatherReplacements_entries (inputs : list form_input) :
  gathered_from inputs (Object_entries (gatherReplacements inputs)).
Proof.
  destruct (gatherReplacements_from inputs) as [Hnd Hall].
  pose proof (Object_entries_perm (gatherReplacements inputs)) as Hperm.
  split.
  - eapply Permutation_NoDup; [|exact Hnd].
    apply Permutation_map, Permutation_sym, Hperm.
  - intros k v Hin. apply Hall.
    eapply Permutation_in; [exact Hperm | exact Hin].
Qed.

Lemma gather_keeps (k v : jsstring) (inputs : list form_input)
  (acc : list (jsstring * jsstring)) :
  In (k, v) acc ->
  Forall (fun input => blank input \/ dataset_original input <> k) inputs ->
  In (k, v)
    (fold_left
       (fun replacements input =>
          match trim (input_value input) with
          | [] => replacements
          | v => assign replacements (dataset_original input) v
          end)
       inputs acc).
Proof.
  intros Hin Hall. revert acc Hin.
  induction Hall as [|input rest Hi _ IH]; intros acc Hin; cbn [fold_left];
    [exact Hin|].
  apply IH. destruct Hi as [Hb | Hne].
  - unfold blank in Hb. now rewrite Hb.
  - destruct (trim (input_value input)); [exact Hin|].
    unfold assign.
    destruct (str_eqb (dataset_original input) (str "__proto__"));
      [exact Hin|].
    now apply set_property_keeps.
Qed.

(** X22.  When several inputs carry the same word, the last one that is
    not blank decides: its trimmed value is the replacement handed to the
    page for that word. *)
Theorem gatherReplacements_last_wins
  (before after : list form_input) (input : form_input) :
  ~ blank input ->
  dataset_original input <> str "__proto__" ->
  Forall (fun later =>
            blank later \/ dataset_original later <> dataset_original input)
         after ->
  In (dataset_original input, trim (input_value input))
     (Object_entries (gatherReplacements (before ++ input :: after))).
Proof.
  intros Hnb Hproto Hafter.
  eapply Permutation_in;
    [apply Permutation_sym, Object_entries_perm|].
  unfold gatherReplacements. rewrite fold_left_app. cbn [fold_left].
  apply gather_keeps; [|exact Hafter].
  unfold blank in Hnb.
  destruct (trim (input_value input)) as [|c v] eqn:Ht; [congruence|].
  unfold assign.
  destruct (str_eqb (dataset_original input) (str "__proto__")) eqn:Hp.
  - apply str_eqb_eq in Hp. contradiction.
  - apply set_property_has.
Qed.
End GatherClaims.

Lemma gatherReplacements_last_wins_witness :
  (~ blank {| Popup.dataset_original := str "cat";
              Popup.input_value := str " cow " |} /\
   str "cat" <> str "__proto__" /\
   Forall (fun later =>
             blank later \/ Popup.dataset_original later <> str "cat")
          [ {| Popup.dataset_original := str "cat";
               Popup.input_value := str "  " |} ]) /\
  In (str "cat", trim (str " cow "))
     (Popup.Object_entries
        (Popup.gatherReplacements
           ([ {| Popup.dataset_original := str "cat";
                 Popup.input_value := str "dog" |} ]
            ++ {| Popup.dataset_original := str "cat";
                  Popup.input_value := str " cow " |}
            :: [ {| Popup.dataset_original := str "cat";
                    Popup.input_value := str "  " |} ]))).
Proof.
  assert (Hnb : ~ blank {| Popup.dataset_original := str "cat";
                           Popup.input_value := str " cow " |})
    by discriminate.
  assert (Hp : str "cat" <> str "__proto__") by discriminate.
  assert (Hafter :
    Forall (fun later =>
              blank later \/ Popup.dataset_original later <> str "cat")
           [ {| Popup.dataset_original := str "cat";
                Popup.input_value := str "  " |} ]).
  { constructor; [left; reflexivity | constructor]. }
  split; [repeat split; assumption|].
  exact (@gatherReplacements_last_wins
           [ {| Popup.dataset_original := str "cat";
                Popup.input_value := str "dog" |} ]
           [ {| Popup.dataset_original := str "cat";
                Popup.input_value := str "  " |} ]
           {| Popup.dataset_original := str "cat";
              Popup.input_value := str " cow " |}
           Hnb Hp Hafter).
Defined.

Section ReplaceClickClaims.
Import Popup.
Variable unicode_upper : char -> char.



End ReplaceClickClaims.

(** * The panel *)

Section PanelCards.
Variable h : host.
Variable w : window.





Lemma renderApiItem_missing (flag : bool) (d : descriptor) :
  namespace (def d) = None ->
  fallback (def d) = None ->
  truthy (lookup (key (def d)) w) = false ->
  Popup.renderApiItem h w flag d = Returns (unavailable_card d, flag).
Proof.
  intros Hns Hfb Hkey.
  assert (Hres : Popup.getApiObject w (def d) = {| api := VNull; path := [] |}).
  { unfold Popup.getApiObject, namespace_is_ai. now rewrite Hns, Hfb, Hkey. }
  unfold Popup.renderApiItem. rewrite Hres. cbn [api path].
  cbn. now rewrite andb_false_r.
Qed.

(** X25.  On a window that binds none of the six capabilities, whatever
    the host, the panel shows six cards with the badge ['unavailable'],
    the details ["Not found"] and no button, and the Mad Libs part stays
    hidden behind its message. *)
Theorem openPanel_without_capabilities :
  (forall d, In d apis -> truthy (lookup (key (def d)) w) = false) ->
  Popup.openPanel h w
  = Returns
      (map unavailable_card apis,
       {| Popup.unavailable_msg_hidden := false;
          Popup.content_hidden := true |}).
Proof.
  intros Hmissing.
  assert (Hall : forall ds flag,
            incl ds apis ->
            Popup.renderApiItems h w flag ds
            = Returns (map unavailable_card ds, flag)).
  { induction ds as [|d rest IH]; intros flag Hincl;
      cbn [Popup.renderApiItems map]; [reflexivity|].
    assert (Hd : In d apis) by (apply Hincl; now left).
    rewrite renderApiItem_missing.
    - cbn [bind fst snd]. rewrite IH; [reflexivity|].
      intros x Hx. apply Hincl. now right.
    - unfold apis in Hd. cbn in Hd.
      repeat (destruct Hd as [<- | Hd]; [reflexivity|]). contradiction.
    - unfold apis in Hd. cbn in Hd.
      repeat (destruct Hd as [<- | Hd]; [reflexivity|]). contradiction.
    - now apply Hmissing. }
  unfold Popup.openPanel. rewrite Hall by apply incl_refl. reflexivity.
Qed.
End PanelCards.

Lemma openPanel_without_capabilities_witness :
  (forall d, In d apis -> truthy (lookup (key (def d)) []) = false) /\
  Popup.openPanel host_throwing []
  = Returns
      (map unavailable_card apis,
       {| Popup.unavailable_msg_hidden := false;
          Popup.content_hidden := true |}).
Proof.
  assert (Hm : forall d, In d apis -> truthy (lookup (key (def d)) []) = false)
    by (intros d _; reflexivity).
  split; [exact Hm|].
  exact (@openPanel_without_capabilities host_throwing [] Hm).
Defined.

Section CardActions.
Variable h : host.
Variable w : window.



End CardActions.

Section CreateArgs.

Lemma lookup_set_prop (k k' : jsstring) (v : value)
  (props : list (jsstring * value)) :
  lookup k' (set_prop k v props)
  = if str_eqb k' k then v else lookup k' props.
Proof.
  induction props as [|[k0 v0] rest IH]; cbn [set_prop lookup].
  - now destruct (str_eqb k' k).
  - destruct (str_eqb k k0) eqn:Hk.
    + apply str_eqb_eq in Hk. subst k0. cbn [lookup].
      now destruct (str_eqb k' k).
    + cbn [lookup]. rewrite IH.
      destruct (str_eqb k' k0) eqn:Hk0; [|reflexivity].
      apply str_eqb_eq in Hk0. subst k0.
      destruct (str_eqb k' k) eqn:Hkk; [|reflexivity].
      apply str_eqb_eq in Hkk. subst k'.
      rewrite str_eqb_refl in Hk. discriminate.
Qed.

(** X27.  The arguments of the download's [create] call are the
    descriptor's [checkArgs] with the progress monitor added: reading
    [monitor] gives the monitor (also when [checkArgs] had a property of
    that name), and every other property reads as in [checkArgs]. *)
Theorem createArgs_lookup (d : descriptor) (monitor : value) (k : jsstring) :
  get (createArgs d monitor) k
  = Returns (if str_eqb k (str "monitor") then monitor
             else match get (checkArgs_value d) k with
                  | Returns v => v
                  | Throws _ => VUndefined
                  end).
Proof.
  unfold createArgs, checkArgs_value.
  destruct (checkArgs d) as [props|]; cbn [get].
  - now rewrite lookup_set_prop.
  - cbn [lookup]. reflexivity.
Qed.
End CreateArgs.

(** * Downloads *)

Section Downloads.
Variable H : model_host.
Variable session_value : nat -> value.

Lemma createOrThrow_cases (apiObject : value) (d : descriptor)
  (monitor c : value) (log : list event) :
  get apiObject (str "create") = Returns c ->
  createOrThrow H apiObject d monitor log
  = if truthy c then create H (createArgs d monitor) log
    else (Throws (Error (str "Create method not found")), log).
Proof.
  intros Hget. unfold createOrThrow, bindM, lift. rewrite Hget.
  now destruct (truthy c).
Qed.


(** X29.  After a download that created a session whose object has a
    [destroy] method, the session is destroyed exactly once in the three
    panels, but not at the same time: the summarization panel destroys
    it before the handler returns and only schedules the reload, the two
    other panels return with the session alive and destroy it when the
    scheduled callback runs. *)
Theorem downloadClick_disposal (apiObject : value) (d : descriptor)
  (monitor c : value) (flag : bool) (log : list event) :
  get apiObject (str "create") = Returns c ->
  truthy c = true ->
  create_result H log (createArgs d monitor) = Returns tt ->
  can_destroy session_value (created log) = true ->
  Popup.downloadClick H apiObject d monitor flag log
  = (Returns (downloaded_view [DestroyLater (created log)],
              if str_eqb (key (def d)) (str "LanguageModel") then true
              else flag),
     log ++ [EvCreate (created log) (createArgs d monitor)]) /\
  snd (runTimers H session_value [DestroyLater (created log)]
         (log ++ [EvCreate (created log) (createArgs d monitor)]))
  = log ++ [EvCreate (created log) (createArgs d monitor);
            EvDestroy (created log)] /\
  Part001.downloadClick H apiObject d monitor log
  = (Returns (downloaded_view [DestroyLater (created log)]),
     log ++ [EvCreate (created log) (createArgs d monitor)]) /\
  snd (Part000.downloadClick H session_value apiObject d monitor log)
  = log ++ [EvCreate (created log) (createArgs d monitor);
            EvDestroy (created log)] /\
  (forall view,
     fst (Part000.downloadClick H session_value apiObject d monitor log)
     = Returns view ->
     timers view = [ReloadLater]) /\
  (forall log', snd (runTimers H session_value [ReloadLater] log') = log').
Proof.
  intros Hget Hc Hcreate Hcan.
  unfold Popup.downloadClick, Part000.downloadClick, Part001.downloadClick,
    try_catchM, bindM.
  rewrite (createOrThrow_cases apiObject d monitor log Hget), Hc.
  unfold create. rewrite Hcreate.
  unfold runTimers, runTimer, try_catchM, bindM, destroy_if_possible.
  rewrite Hcan. unfold destroy, ret. cbn [fst snd].
  repeat split.
  - destruct (destroy_result H
                (log ++ [EvCreate (created log) (createArgs d monitor)])
                (created log));
      cbn [snd]; now rewrite <- app_assoc.
  - destruct (destroy_result H
                (log ++ [EvCreate (created log) (createArgs d monitor)])
                (created log));
      cbn [snd]; now rewrite <- app_assoc.
  - intros view.
    destruct (destroy_result H
                (log ++ [EvCreate (created log) (createArgs d monitor)])
                (created log));
      cbn [fst]; intros [= <-]; reflexivity.
Qed.
End Downloads.


Lemma downloadClick_disposal_witness :
  (get handle_with_create (str "create") = Returns (VObj (Some 2) []) /\
   truthy (VObj (Some 2) []) = true /\
   create_result (host_of (fun t => t)) []
     (createArgs (descriptor_of "Writer" "Writer") (fn 3)) = Returns tt /\
   can_destroy (fun _ => session_with_destroy) (created []) = true) /\
  snd (Part000.downloadClick (host_of (fun t => t))
         (fun _ => session_with_destroy) handle_with_create
         (descriptor_of "Writer" "Writer") (fn 3) [])
  = [] ++ [EvCreate (created [])
             (createArgs (descriptor_of "Writer" "Writer") (fn 3));
           EvDestroy (created [])].
Proof.
  split; [repeat split|].
  exact (proj1 (proj2 (proj2 (proj2
           (@downloadClick_disposal (host_of (fun t => t))
              (fun _ => session_with_destroy) handle_with_create
              (descriptor_of "Writer" "Writer") (fn 3) (VObj (Some 2) [])
              false [] eq_refl eq_refl eq_refl eq_refl))))).
Defined.

(** * The summarize button *)

Section SummarizeClick.
Import Part000.
Variable H : model_host.

End SummarizeClick.
